(** * TuneScape: the 3D music gallery (components/MusicSpace)

    A shallow embedding of the [MusicSpace] React component: the card
    texture renderer [drawPlayerCanvas], the Fibonacci-sphere layout of
    the scene build, the orbit camera and its wheel, mouse and touch
    handlers, the ray pick, the cover-image loader with its retries, the
    render loop and the playback-update effect.

    Numbers.  JavaScript numbers are modelled by the real numbers of the
    Standard Library: [Math.sqrt], [Math.cos], [Math.sin], [Math.acos],
    [Math.PI], [Math.max], [Math.min] and [Math.abs] become [sqrt], [cos],
    [sin], [acos], [PI], [Rmax], [Rmin] and [Rabs]; [Math.floor] becomes
    [Int_part].  Rounding, infinities and NaN are outside the model.

    State.  The mutable objects of the component (the [sceneRef] record,
    the closure variables of the effect, the refs) are records that every
    handler takes and returns; a handler that raises returns the state it
    leaves behind together with the exception. *)

From Stdlib Require Import Reals Lra Lia List Bool String Ascii ZArith.
From Stdlib Require Import DecimalString DecimalN.
From Stdlib Require Import FunInd Recdef.
Import ListNotations.

Open Scope R_scope.

(** ** Numbers *)

Definition Rltb (x y : R) : bool := if Rlt_dec x y then true else false.
Definition Rleb (x y : R) : bool := if Rle_dec x y then true else false.
Definition Reqb (x y : R) : bool := if Req_dec_T x y then true else false.

(** [Math.floor], as a number again. *)
Definition floor (x : R) : R := IZR (Int_part x).

(** [Math.max(lo, Math.min(hi, x))], the idiom of every bound in the
    component. *)
Definition clamp (lo hi x : R) : R := Rmax lo (Rmin hi x).

(** [x % m] on numbers: the remainder of the truncated division. *)
Definition trunc (x : R) : R := if Rle_dec 0 x then floor x else - floor (- x).
Definition jsRem (x m : R) : R := x - m * trunc (x / m).

(** ** Songs (types.ts) *)

Record Song := mkSong {
  id : string;
  title : string;
  artist : string;
  album : string;
  coverUrl : string;
  audioUrl : string;
  duration : R;
  genre : string;
  youtubeId : option string
}.

(** ** The canvas: a fixed-size raster and what was drawn on it *)

Inductive Font :=
| TitleFont     (* bold 22px Inter *)
| ArtistFont    (* 500 15px Inter *)
| TimeFont      (* 600 12px Inter *)
| IconFont (px : R).  (* bold <px>px sans-serif *)

Inductive Paint :=
| CardGradient (top bottom : string)
| GlassGradient
| DisplayGradient
| Color (css : string).

Inductive Glyph := PrevGlyph | PlayGlyph | PauseGlyph | NextGlyph.

Inductive DrawOp :=
| ClearRect (x y w h : R)
| FillRoundRect (paint : Paint) (alpha : R) (x y w h r : R)
| StrokeRoundRect (stroke : string) (lineWidth : R) (x y w h r : R)
| FillText (font : Font) (fill : string) (text : string) (x y : R)
| FillGlyph (font : Font) (fill : string) (g : Glyph) (x y : R).

Record Canvas := mkCanvas {
  width : R;
  height : R;
  dataset : list (string * string);
  ops : list DrawOp
}.

Definition trackColor : string := "rgba(255, 255, 255, 0.28)".
Definition fillColor : string := "rgba(255, 255, 255, 0.6)".

(** [formatTimeForCanvas]: minutes, a colon, seconds padded to two
    places.  (Integers print in decimal; the exponent form that huge
    numbers print in is not modelled.) *)
Definition numToString (x : R) : string :=
  NilZero.string_of_int (Z.to_int (Int_part x)).

Definition padStart2 (s : string) : string :=
  if (String.length s <? 2)%nat then String.append "0" s else s.

Definition formatTimeForCanvas (seconds : R) : string :=
  let mins := floor (seconds / 60) in
  let secs := floor (jsRem seconds 60) in
  String.append (numToString mins)
    (String.append ":" (padStart2 (numToString secs))).

(** ** The card texture renderer *)

(** [s.slice(0, -1)]. *)
Definition dropLast (s : string) : string :=
  String.substring 0 (String.length s - 1) s.

Definition ellipsis : string := "...".

Section Renderer.

(** The browser: [ctx.measureText(text).width] under a given font, and
    whether [canvas.getContext('2d')] hands out a context. *)
Variable measureText : Font -> string -> R.
Variable context2d : bool.

(** The [while] loop of the truncation: drop the last character while
    the text with the ellipsis is wider than [maxWidth] and characters
    remain. *)
Function shorten (font : Font) (maxWidth : R) (text : string)
    {measure String.length text} : string :=
  if Rltb maxWidth (measureText font (String.append text ellipsis))
     && (0 <? String.length text)%nat
  then shorten font maxWidth (dropLast text)
  else text.
Proof.
  intros font maxWidth text Hc.
  apply andb_true_iff in Hc as [_ Hlen].
  apply Nat.ltb_lt in Hlen.
  assert (Hdrop : forall s,
            String.length (dropLast s) = (String.length s - 1)%nat).
  { intros s; unfold dropLast.
    generalize (String.length s - 1)%nat (Nat.le_sub_l (String.length s) 1).
    induction s as [|a s IH]; intros [|n] Hn; simpl in *; try lia; auto.
    rewrite IH; lia. }
  rewrite Hdrop; lia.
Defined.

(** [if (metrics.width > max) { while ... ; text += '...' }]. *)
Definition truncateText (font : Font) (maxWidth : R) (text : string)
    : string :=
  if Rltb maxWidth (measureText font text)
  then String.append (shorten font maxWidth text) ellipsis
  else text.

Definition canvasW : R := 512.
Definition canvasH : R := 760.
Definition cardRadius : R := 45.
Definition padding : R := 18.
Definition displayHeight : R := floor (canvasH * (2 / 3)).
Definition displayTop : R := padding.
Definition displayLeft : R := padding.
Definition displayWidth : R := canvasW - padding * 2.
Definition displayRadius : R := 32.
Definition titleAreaTop : R := displayTop + displayHeight + 20.
Definition titleAreaHeight : R := 52.
Definition maxTitleWidth : R := displayWidth - 10.
Definition progressBarTop : R := titleAreaTop + titleAreaHeight + 16.
Definition progressBarHeight : R := 2.5.
Definition progressBarLeft : R := displayLeft.
Definition progressBarWidth : R := displayWidth.
Definition controlsTop : R := progressBarTop + 45.
Definition centerX : R := canvasW / 2.
Definition iconSize : R := 40.
Definition playIconSize : R := 62.
Definition iconSpacing : R := 110.

(** The progress fill: drawn for an active card with positive progress,
    as wide as [progressBarWidth * progress]. *)
Definition progressFillOps (active : bool) (progress : R) : list DrawOp :=
  if active && Rltb 0 progress
  then [FillRoundRect (Color fillColor) 1 progressBarLeft progressBarTop
          (progressBarWidth * progress) progressBarHeight
          (progressBarHeight / 2)]
  else [].

Definition drawPlayerCanvas (song : Song) (active playing : bool)
    (progress : R) : Canvas :=
  let w := canvasW in
  let h := canvasH in
  if negb context2d then mkCanvas w h [] []
  else
    mkCanvas w h []
      ([ ClearRect 0 0 w h;
         (* 1. card frame, glass overlay, border *)
         FillRoundRect
           (CardGradient (if active then "#2d2d2d" else "#2a2a2a")
                         (if active then "#1f1f1f" else "#222222"))
           1 0 0 w h cardRadius;
         FillRoundRect GlassGradient 0.08 0 0 w h cardRadius;
         StrokeRoundRect
           (if active then "rgba(255, 255, 255, 0.18)"
            else "rgba(255, 255, 255, 0.1)")
           (if active then 1.5 else 1) 0 0 w h cardRadius;
         (* 2. display area *)
         FillRoundRect DisplayGradient 1
           displayLeft displayTop displayWidth displayHeight displayRadius;
         StrokeRoundRect "rgba(0, 0, 0, 0.06)" 1.5
           displayLeft displayTop displayWidth displayHeight displayRadius;
         (* 3. title and artist *)
         FillText TitleFont "#ffffff"
           (truncateText TitleFont maxTitleWidth (title song))
           displayLeft titleAreaTop;
         FillText ArtistFont "rgba(255, 255, 255, 0.75)"
           (truncateText ArtistFont maxTitleWidth (artist song))
           displayLeft (titleAreaTop + 28);
         (* 4. progress track *)
         FillRoundRect (Color trackColor) 1 progressBarLeft progressBarTop
           progressBarWidth progressBarHeight (progressBarHeight / 2) ]
       ++ progressFillOps active progress
       ++
       [ FillText TimeFont "rgba(255, 255, 255, 0.85)"
           (formatTimeForCanvas (duration song * progress))
           progressBarLeft (progressBarTop + 6);
         FillText TimeFont "rgba(255, 255, 255, 0.85)"
           (String.append "-"
              (formatTimeForCanvas (duration song * (1 - progress))))
           (progressBarLeft + progressBarWidth) (progressBarTop + 6);
         (* 5. transport glyphs *)
         FillGlyph (IconFont iconSize) "#ffffff" PrevGlyph
           (centerX - iconSpacing) controlsTop;
         FillGlyph (IconFont playIconSize)
           (if active && playing then "rgba(255, 255, 255, 0.95)"
            else "#ffffff")
           (if active && playing then PauseGlyph else PlayGlyph)
           centerX controlsTop;
         FillGlyph (IconFont iconSize) "#ffffff" NextGlyph
           (centerX + iconSpacing) controlsTop ]).

End Renderer.

(** ** The scene: cards, their layout and their textures *)

Record Vec3 := mkVec3 { vx : R; vy : R; vz : R }.

(** A [THREE.CanvasTexture]: the canvas it shows and its version, which
    every [needsUpdate = true] increments (the constructor sets it once). *)
Record Texture := mkTexture { image : Canvas; version : nat }.

(** The cover overlay mesh that a finished image load adds to the group. *)
Record ArtMesh := mkArtMesh {
  artWidth : R;
  artHeight : R;
  artPosition : Vec3
}.

(** One entry of [cards] together with its [THREE.Group]: position and
    scale of the group, the cover meshes added to it.  (The orientation
    that [lookAt(0, 0, 0)] gives the group is left out.) *)
Record Card := mkCard {
  song : Song;
  position : Vec3;
  scale : Vec3;
  texture : Texture;
  covers : list ArtMesh
}.

Definition setPositionY (y : R) (c : Card) : Card :=
  mkCard (song c) (mkVec3 (vx (position c)) y (vz (position c)))
         (scale c) (texture c) (covers c).

Definition setScale (s : Vec3) (c : Card) : Card :=
  mkCard (song c) (position c) s (texture c) (covers c).

(** [c.texture.image = canvas; c.texture.needsUpdate = true]. *)
Definition setImage (cv : Canvas) (c : Card) : Card :=
  mkCard (song c) (position c) (scale c)
         (mkTexture cv (S (version (texture c)))) (covers c).

Definition addCover (a : ArtMesh) (c : Card) : Card :=
  mkCard (song c) (position c) (scale c) (texture c) (covers c ++ [a]).

(** [xs.forEach((x, idx) => ...)] collecting one result per element. *)
Fixpoint forEachFrom {A B : Type} (f : A -> nat -> B) (idx : nat)
    (xs : list A) : list B :=
  match xs with
  | [] => []
  | x :: rest => f x idx :: forEachFrom f (S idx) rest
  end.

Definition forEachIdx {A B : Type} (f : A -> nat -> B) (xs : list A)
    : list B :=
  forEachFrom f 0 xs.

(** The Fibonacci-sphere distribution of the scene build. *)
Definition layoutPhi (n idx : nat) : R :=
  acos (-1 + (2 * INR idx) / INR n).

Definition layoutTheta (n idx : nat) : R :=
  sqrt (INR n * PI) * layoutPhi n idx.

Definition layoutRadius (idx : nat) : R :=
  35 + INR (idx mod 3) * 8.

Definition layoutPosition (n idx : nat) : Vec3 :=
  let phi := layoutPhi n idx in
  let theta := layoutTheta n idx in
  let radius := layoutRadius idx in
  mkVec3 (radius * cos theta * sin phi)
         (radius * sin theta * sin phi)
         (radius * cos phi).

Section Scene.

Variable measureText : Font -> string -> R.
Variable context2d : bool.

Local Abbreviation draw := (drawPlayerCanvas measureText context2d).

(** The body of [songs.forEach] in the build effect. *)
Definition buildCard (n : nat) (currentSong : Song) (isPlaying : bool)
    (s : Song) (idx : nat) : Card :=
  let canvas :=
    draw s (String.eqb (id s) (id currentSong)) isPlaying 0 in
  mkCard s (layoutPosition n idx) (mkVec3 1 1 1) (mkTexture canvas 1) [].

Definition buildCards (songs : list Song) (currentSong : Song)
    (isPlaying : bool) : list Card :=
  forEachIdx (buildCard (List.length songs) currentSong isPlaying) songs.

(** *** The playback-update effect *)

Record Playback := mkPlayback {
  currentSong : Song;
  isPlaying : bool;
  currentTime : R
}.

Definition timeDiff (p : Playback) (lastTime : R) : R :=
  Rabs (currentTime p - lastTime).

Definition shouldUpdateTime (p : Playback) (lastTime : R) : bool :=
  Rleb 0.5 (timeDiff p lastTime).

(** [c.song.duration || 100]. *)
Definition progressDivisor (s : Song) : R :=
  if Reqb (duration s) 0 then 100 else duration s.

Definition isCurrent (p : Playback) (c : Card) : bool :=
  String.eqb (id (song c)) (id (currentSong p)).

(** The condition of the first branch: the card is redrawn as the
    active one. *)
Definition redrawsActive (p : Playback) (lastTime : R) (c : Card) : bool :=
  isCurrent p c
  && (shouldUpdateTime p lastTime || Reqb (timeDiff p lastTime) 0).

(** [canvas.dataset?.playing === 'true']. *)
Fixpoint datasetGet (key : string) (d : list (string * string))
    : option string :=
  match d with
  | [] => None
  | (k, v) :: rest => if String.eqb k key then Some v else datasetGet key rest
  end.

Definition wasPlaying (c : Card) : bool :=
  match datasetGet "playing" (dataset (image (texture c))) with
  | Some v => String.eqb v "true"
  | None => false
  end.

(** The body of [sceneRef.current.cards.forEach] in the effect.  (The
    second branch also asks for [c.texture.image], which is always
    there.) *)
Definition updateCard (p : Playback) (lastTime : R) (c : Card) : Card :=
  if redrawsActive p lastTime c then
    let progress := currentTime p / progressDivisor (song c) in
    setImage (draw (song c) true (isPlaying p) progress) c
  else if negb (isCurrent p c) then
    if wasPlaying c then setImage (draw (song c) false false 0) c else c
  else c.

(** The dependency array [[currentSong.id, isPlaying,
    Math.floor(currentTime * 2) / 2]] and its comparison between two
    renders. *)
Definition Deps : Type := (string * bool * R)%type.

Definition depsOf (p : Playback) : Deps :=
  (id (currentSong p), isPlaying p, floor (currentTime p * 2) / 2).

Definition depsEqb (a b : Deps) : bool :=
  let '(i1, p1, t1) := a in
  let '(i2, p2, t2) := b in
  String.eqb i1 i2 && Bool.eqb p1 p2 && Reqb t1 t2.

(** The component between renders: the cards of [sceneRef.current],
    [lastTimeRef.current], and the dependencies of the last render
    ([None] before the first). *)
Record Gallery := mkGallery {
  cards : list Card;
  lastTimeRef : R;
  lastDeps : option Deps
}.

Definition runsEffect (p : Playback) (g : Gallery) : bool :=
  match lastDeps g with
  | None => true
  | Some d => negb (depsEqb d (depsOf p))
  end.

Definition playbackEffect (p : Playback) (g : Gallery) : Gallery :=
  mkGallery (map (updateCard p (lastTimeRef g)) (cards g))
            (if shouldUpdateTime p (lastTimeRef g) then currentTime p
             else lastTimeRef g)
            (lastDeps g).

(** One render with new playback props: the effect runs when a
    dependency changed. *)
Definition render (p : Playback) (g : Gallery) : Gallery :=
  let g' := if runsEffect p g then playbackEffect p g else g in
  mkGallery (cards g') (lastTimeRef g') (Some (depsOf p)).

(** Mounting: the build effect, then the first run of the playback
    effect, with [lastTimeRef] still 0. *)
Definition mount (songs : list Song) (p : Playback) : Gallery :=
  render p (mkGallery (buildCards songs (currentSong p) (isPlaying p)) 0 None).

Definition renders (ps : list Playback) (g : Gallery) : Gallery :=
  fold_left (fun g p => render p g) ps g.

End Scene.

(** ** The orbit camera and the input handlers *)

(** The control fields of [sceneRef.current]. *)
Record Orbit := mkOrbit {
  targetZoom : R;
  orbitAngle : R;
  orbitPitch : R
}.

Definition initialOrbit : Orbit := mkOrbit 50 0 0.3.

(** The closure variables the handlers share, with the [mouse] vector. *)
Record Pointer := mkPointer {
  isMouseDown : bool;
  lastMouseX : R;
  lastMouseY : R;
  hasDragged : bool;
  lastTouchX : R;
  lastTouchY : R;
  touchStartDistance : R;
  mouseX : R;
  mouseY : R
}.

Definition initialPointer : Pointer := mkPointer false 0 0 false 0 0 0 0 0.

Record Controls := mkControls { orbit : Orbit; pointer : Pointer }.

Definition initialControls : Controls := mkControls initialOrbit initialPointer.

Record Camera := mkCamera { cameraPosition : Vec3; aspect : R }.

Record Viewport := mkViewport { innerWidth : R; innerHeight : R }.

Record MouseEvent := mkMouseEvent { button : Z; clientX : R; clientY : R }.

Record Touch := mkTouch { touchX : R; touchY : R }.

Record TouchEvent := mkTouchEvent {
  touches : list Touch;
  changedTouches : list Touch
}.

Definition setTargetZoom (z : R) (o : Orbit) : Orbit :=
  mkOrbit z (orbitAngle o) (orbitPitch o).

Definition setMouse (x y : R) (p : Pointer) : Pointer :=
  mkPointer (isMouseDown p) (lastMouseX p) (lastMouseY p) (hasDragged p)
            (lastTouchX p) (lastTouchY p) (touchStartDistance p) x y.

Definition setLastMouse (x y : R) (p : Pointer) : Pointer :=
  mkPointer (isMouseDown p) x y (hasDragged p)
            (lastTouchX p) (lastTouchY p) (touchStartDistance p)
            (mouseX p) (mouseY p).

Definition setIsMouseDown (b : bool) (p : Pointer) : Pointer :=
  mkPointer b (lastMouseX p) (lastMouseY p) (hasDragged p)
            (lastTouchX p) (lastTouchY p) (touchStartDistance p)
            (mouseX p) (mouseY p).

Definition setHasDragged (b : bool) (p : Pointer) : Pointer :=
  mkPointer (isMouseDown p) (lastMouseX p) (lastMouseY p) b
            (lastTouchX p) (lastTouchY p) (touchStartDistance p)
            (mouseX p) (mouseY p).

Definition setLastTouch (x y : R) (p : Pointer) : Pointer :=
  mkPointer (isMouseDown p) (lastMouseX p) (lastMouseY p) (hasDragged p)
            x y (touchStartDistance p) (mouseX p) (mouseY p).

Definition setTouchStartDistance (d : R) (p : Pointer) : Pointer :=
  mkPointer (isMouseDown p) (lastMouseX p) (lastMouseY p) (hasDragged p)
            (lastTouchX p) (lastTouchY p) d (mouseX p) (mouseY p).

(** [onWheel]: the adaptive zoom step, kept within [10, 300]. *)
Definition distanceMultiplier (currentDistance : R) : R :=
  Rmax 0.8 (Rmin 2.5 (currentDistance / 50)).

Definition onWheel (deltaY : R) (o : Orbit) : Orbit :=
  let currentDistance := targetZoom o in
  let zoomDelta := deltaY * 0.12 * distanceMultiplier currentDistance in
  setTargetZoom (Rmax 10 (Rmin 300 (targetZoom o + zoomDelta))) o.

Definition dragButton (e : MouseEvent) : bool :=
  (button e =? 0)%Z || (button e =? 2)%Z.

Definition onMouseDown (e : MouseEvent) (p : Pointer) : Pointer :=
  if dragButton e then
    setLastMouse (clientX e) (clientY e)
      (setHasDragged false (setIsMouseDown true p))
  else p.

(** (The handler also accepts an event without a [button]; every mouse
    event has one.) *)
Definition onMouseUp (e : MouseEvent) (p : Pointer) : Pointer :=
  if dragButton e then setIsMouseDown false p else p.

Definition dragSensitivity : R := 0.002.

(** The distance one move event covers, from the last recorded position. *)
Definition moveDistance (x0 y0 x1 y1 : R) : R :=
  let deltaX := x1 - x0 in
  let deltaY := y1 - y0 in
  sqrt (deltaX * deltaX + deltaY * deltaY).

Definition onMouseMove (v : Viewport) (e : MouseEvent) (c : Controls)
    : Controls :=
  let p := setMouse (clientX e / innerWidth v * 2 - 1)
                    (- (clientY e / innerHeight v) * 2 + 1) (pointer c) in
  if isMouseDown p then
    let deltaX := clientX e - lastMouseX p in
    let deltaY := clientY e - lastMouseY p in
    let dragDistance :=
      moveDistance (lastMouseX p) (lastMouseY p) (clientX e) (clientY e) in
    let '(o, p) :=
      if Rltb 5 dragDistance then
        (mkOrbit (targetZoom (orbit c))
                 (orbitAngle (orbit c) + deltaX * dragSensitivity)
                 (Rmax (-1.2)
                    (Rmin 1.2 (orbitPitch (orbit c) + deltaY * dragSensitivity))),
         setHasDragged true p)
      else (orbit c, p) in
    mkControls o (setLastMouse (clientX e) (clientY e) p)
  else mkControls (orbit c) p.

(** *** Picking *)

(** The objects under [cardGroup]: for every card its group, the card
    mesh and the cover meshes inside it. *)
Inductive Object3D :=
| CardMesh (i : nat)
| CoverMesh (i k : nat)
| CardGroupOf (i : nat)
| CardGroupRoot
| SceneRoot.

Definition parent (o : Object3D) : option Object3D :=
  match o with
  | CardMesh i | CoverMesh i _ => Some (CardGroupOf i)
  | CardGroupOf _ => Some CardGroupRoot
  | CardGroupRoot => Some SceneRoot
  | SceneRoot => None
  end.

(** [obj.userData.song]: only the groups carry it. *)
Definition userDataSong (cs : list Card) (o : Object3D) : option Song :=
  match o with
  | CardGroupOf i => option_map song (nth_error cs i)
  | _ => None
  end.

Definition depth (o : Object3D) : nat :=
  match o with
  | CardMesh _ | CoverMesh _ _ => 3
  | CardGroupOf _ => 2
  | CardGroupRoot => 1
  | SceneRoot => 0
  end.

Definition isSome {A : Type} (x : option A) : bool :=
  match x with Some _ => true | None => false end.

(** [while (obj.parent && !obj.userData.song) obj = obj.parent]. *)
Function walkUp (cs : list Card) (o : Object3D) {measure depth o}
    : Object3D :=
  match parent o with
  | Some up => if isSome (userDataSong cs o) then o else walkUp cs up
  | None => o
  end.
Proof.
  intros cs o up Hp _; destruct o; inversion Hp; subst; simpl; lia.
Defined.

Inductive Exn := TypeError (message : string).

(** What a handler leaves behind: the state, and the exception when it
    raised one. *)
Inductive Completion (A : Type) :=
| Returned (a : A)
| Threw (e : Exn) (a : A).

Arguments Returned {A} a.
Arguments Threw {A} e a.

Definition stateOf {A : Type} (c : Completion A) : A :=
  match c with Returned a | Threw _ a => a end.

Section Input.

(** [raycaster.setFromCamera(mouse, camera)] followed by
    [raycaster.intersectObjects(cardGroup.children, true)]: the objects
    hit, nearest first. *)
Variable intersectObjects :
  Camera -> R * R -> list Card -> list Object3D.

(** The pick both [onClick] and [onTouchEnd] run; the result lists the
    calls of [onSelectSong]. *)
Definition pick (cam : Camera) (mouse : R * R) (cs : list Card)
    : list Song :=
  match intersectObjects cam mouse cs with
  | [] => []
  | obj :: _ =>
      match userDataSong cs (walkUp cs obj) with
      | Some s => [s]
      | None => []
      end
  end.

Definition onClick (cam : Camera) (cs : list Card) (p : Pointer)
    : Pointer * list Song :=
  if hasDragged p then (setHasDragged false p, [])
  else (p, pick cam (mouseX p, mouseY p) cs).

Definition touchDistance (a b : Touch) : R :=
  let dx := touchX a - touchX b in
  let dy := touchY a - touchY b in
  sqrt (dx * dx + dy * dy).

Definition onTouchStart (e : TouchEvent) (p : Pointer) : Pointer :=
  match touches e with
  | [] => p
  | [t] => setHasDragged false (setLastTouch (touchX t) (touchY t) p)
  | [t0; t1] => setTouchStartDistance (touchDistance t0 t1) p
  | _ => p
  end.

(** [onTouchMove].  With one finger, a move of more than 5px sets
    [hasDragged] and then reads [sceneRef.current.rotationTarget.y];
    [sceneRef.current] has no [rotationTarget], so the read raises and the
    rest of the handler does not run.  With two fingers, the change of
    their distance moves [targetZoom], kept within [15, 250]. *)
Definition onTouchMove (e : TouchEvent) (c : Controls)
    : Completion Controls :=
  match touches e with
  | [] => Returned c
  | [t] =>
      let p := pointer c in
      let dragDistance :=
        moveDistance (lastTouchX p) (lastTouchY p) (touchX t) (touchY t) in
      if Rltb 5 dragDistance then
        Threw (TypeError "rotationTarget is undefined")
              (mkControls (orbit c) (setHasDragged true p))
      else
        Returned (mkControls (orbit c) (setLastTouch (touchX t) (touchY t) p))
  | [t0; t1] =>
      let p := pointer c in
      let currentDistance := touchDistance t0 t1 in
      let zoomDelta := (touchStartDistance p - currentDistance) * 0.5 in
      Returned
        (mkControls
           (setTargetZoom
              (Rmax 15 (Rmin 250 (targetZoom (orbit c) + zoomDelta)))
              (orbit c))
           (setTouchStartDistance currentDistance p))
  | _ => Returned c
  end.

Definition onTouchEnd (v : Viewport) (cam : Camera) (cs : list Card)
    (e : TouchEvent) (p : Pointer) : Pointer * list Song :=
  let '(p, calls) :=
    if (Nat.eqb (List.length (touches e)) 0) && negb (hasDragged p) then
      match changedTouches e with
      | touch :: _ =>
          let p := setMouse (touchX touch / innerWidth v * 2 - 1)
                            (- (touchY touch / innerHeight v) * 2 + 1) p in
          (p, pick cam (mouseX p, mouseY p) cs)
      | [] => (p, [])
      end
    else (p, []) in
  (setHasDragged false p, calls).

End Input.

(** ** The cover-image loader *)

(** What one [textureLoader.load] comes back with: a decoded image of
    the given size, a texture without an image, or an error. *)
Inductive LoadResult :=
| Decoded (imgWidth imgHeight : R)
| NoImage
| LoadError.

Inductive LoadEvent :=
| Fetch (url : string) (retries : nat)
| ConsoleWarn
| ConsoleError
| SetTimeout (ms : R)
| AddCover (a : ArtMesh).

(** The cover mesh for a decoded image: the "contain" fit into the
    display area, in the units of the 4 x 5.8 card. *)
Definition coverMesh (imgWidth imgHeight : R) : ArtMesh :=
  let canvasWidth := 512 in
  let canvasHeight := 760 in
  let padding := 18 in
  let displayAreaWidthPx := canvasWidth - padding * 2 in
  let displayAreaHeightPx := floor (canvasHeight * (2 / 3)) in
  let pixelsPerUnitX := canvasWidth / 4 in
  let pixelsPerUnitY := canvasHeight / 5.8 in
  let displayAreaWidth := displayAreaWidthPx / pixelsPerUnitX in
  let displayAreaHeight := displayAreaHeightPx / pixelsPerUnitY in
  let margin := 0.03 in
  let availableWidth := displayAreaWidth * (1 - margin) in
  let availableHeight := displayAreaHeight * (1 - margin) in
  let imageAspect := imgWidth / imgHeight in
  let displayAspect := availableWidth / availableHeight in
  let '(artW, artH) :=
    if Rltb displayAspect imageAspect then
      let artH := availableWidth / imageAspect in
      if Rltb availableHeight artH
      then (availableHeight * imageAspect, availableHeight)
      else (availableWidth, artH)
    else
      let artW := availableHeight * imageAspect in
      if Rltb availableWidth artW
      then (availableWidth, availableWidth / imageAspect)
      else (artW, availableHeight) in
  let artW := Rmin artW availableWidth in
  let artH := Rmin artH availableHeight in
  let cardTopY := 2.9 in
  let paddingInUnits := padding / pixelsPerUnitY in
  let displayAreaTopY := cardTopY - paddingInUnits in
  let displayAreaCenterY := displayAreaTopY - displayAreaHeight / 2 in
  mkArtMesh artW artH (mkVec3 0 displayAreaCenterY 0.02).

(** [!img || !img.width || !img.height]. *)
Definition invalidImage (r : LoadResult) : bool :=
  match r with
  | Decoded w h => Reqb w 0 || Reqb h 0
  | NoImage => true
  | LoadError => false
  end.

(** [loadAlbumArt(url, retries)], run against the results the successive
    loads come back with; when the results run out the last load is still
    pending.  The trace lists what the loader did, in order. *)
Fixpoint loadAlbumArt (url : string) (retries : nat)
    (results : list LoadResult) : list LoadEvent :=
  Fetch url retries ::
  match results with
  | [] => []
  | LoadError :: rest =>
      ConsoleError ::
      (if (0 <? retries)%nat
       then SetTimeout 1000 :: loadAlbumArt url (retries - 1) rest
       else [])
  | Decoded w h :: rest =>
      if invalidImage (Decoded w h) then
        ConsoleWarn ::
        (if (0 <? retries)%nat
         then SetTimeout 500 :: loadAlbumArt url (retries - 1) rest
         else [])
      else [AddCover (coverMesh w h)]
  | NoImage :: rest =>
      ConsoleWarn ::
      (if (0 <? retries)%nat
       then SetTimeout 500 :: loadAlbumArt url (retries - 1) rest
       else [])
  end.

(** [loadAlbumArt(song.coverUrl)]: three retries by default. *)
Definition startLoad (s : Song) (results : list LoadResult)
    : list LoadEvent :=
  loadAlbumArt (coverUrl s) 3 results.

Definition isFetch (e : LoadEvent) : bool :=
  match e with Fetch _ _ => true | _ => false end.

Definition fetches (t : list LoadEvent) : nat :=
  List.length (filter isFetch t).

Fixpoint delays (t : list LoadEvent) : list R :=
  match t with
  | [] => []
  | SetTimeout ms :: rest => ms :: delays rest
  | _ :: rest => delays rest
  end.

Fixpoint coversAdded (t : list LoadEvent) : list ArtMesh :=
  match t with
  | [] => []
  | AddCover a :: rest => a :: coversAdded rest
  | _ :: rest => coversAdded rest
  end.

(** The group after the loader ran: the covers it added are its new
    children; nothing else of the card is touched. *)
Definition applyLoad (t : list LoadEvent) (c : Card) : Card :=
  fold_left (fun c a => addCover a c) (coversAdded t) c.

(** ** The render loop, the resize handler and the whole component *)

(** [THREE.MathUtils.lerp]. *)
Definition lerp (x y t : R) : R := (1 - t) * x + t * y.

(** [Vector3.lerp(v, alpha)]. *)
Definition lerpVec3 (a v : Vec3) (alpha : R) : Vec3 :=
  mkVec3 (vx a + (vx v - vx a) * alpha)
         (vy a + (vy v - vy a) * alpha)
         (vz a + (vz v - vz a) * alpha).

(** The body of [cards.forEach] in [animate]: the idle bob and the
    scale. *)
Definition animateCard (n : nat) (frame : R) (c : Card) (i : nat) : Card :=
  let timeOffset := frame + INR i * 500 in
  let basePhi := acos (-1 + (2 * INR i) / INR n) in
  let baseTheta := sqrt (INR n * PI) * basePhi in
  let cardRadius := 35 + INR (i mod 3) * 8 in
  let baseY := cardRadius * sin baseTheta * sin basePhi in
  setScale (lerpVec3 (scale c) (mkVec3 1 1 1) 0.08)
    (setPositionY (baseY + sin (timeOffset * 0.2) * 0.5) c).

Definition animateCamera (o : Orbit) (cam : Camera) : Camera :=
  let radius := targetZoom o in
  let targetX := radius * sin (orbitAngle o) * cos (orbitPitch o) in
  let targetY := radius * sin (orbitPitch o) in
  let targetZ := radius * cos (orbitAngle o) * cos (orbitPitch o) in
  mkCamera (mkVec3 (lerp (vx (cameraPosition cam)) targetX 0.1)
                   (lerp (vy (cameraPosition cam)) targetY 0.1)
                   (lerp (vz (cameraPosition cam)) targetZ 0.1))
           (aspect cam).

Section Component.

Variable measureText : Font -> string -> R.
Variable context2d : bool.

(** Everything the mounted component holds. *)
Record World := mkWorld {
  songCount : nat;
  gallery : Gallery;
  camera : Camera;
  rendererSize : R * R;
  viewport : Viewport;
  controls : Controls;
  frame : R
}.

Definition mountWorld (songs : list Song) (p : Playback) (v : Viewport)
    : World :=
  mkWorld (List.length songs)
          (mount measureText context2d songs p)
          (mkCamera (mkVec3 0 0 50) (innerWidth v / innerHeight v))
          (innerWidth v, innerHeight v)
          v initialControls 0.

(** One call of [animate]. *)
Definition animate (w : World) : World :=
  let frame := frame w + 0.002 in
  let g := gallery w in
  mkWorld (songCount w)
          (mkGallery
             (forEachIdx (animateCard (songCount w) frame) (cards g))
             (lastTimeRef g) (lastDeps g))
          (animateCamera (orbit (controls w)) (camera w))
          (rendererSize w) (viewport w) (controls w) frame.

(** The window takes a new size and [handleResize] runs. *)
Definition handleResize (v : Viewport) (w : World) : World :=
  mkWorld (songCount w) (gallery w)
          (mkCamera (cameraPosition (camera w))
                    (innerWidth v / innerHeight v))
          (innerWidth v, innerHeight v)
          v (controls w) (frame w).

Definition withControls (c : Controls) (w : World) : World :=
  mkWorld (songCount w) (gallery w) (camera w) (rendererSize w)
          (viewport w) c (frame w).

Inductive Op :=
| Frame
| PlaybackUpdate (p : Playback)
| Resize (v : Viewport)
| Wheel (deltaY : R)
| MouseDown (e : MouseEvent)
| MouseMove (e : MouseEvent)
| MouseUp (e : MouseEvent)
| TouchStart (e : TouchEvent)
| TouchMove (e : TouchEvent).

Definition step (w : World) (op : Op) : World :=
  match op with
  | Frame => animate w
  | PlaybackUpdate p =>
      mkWorld (songCount w) (render measureText context2d p (gallery w))
              (camera w) (rendererSize w) (viewport w) (controls w) (frame w)
  | Resize v => handleResize v w
  | Wheel deltaY =>
      withControls
        (mkControls (onWheel deltaY (orbit (controls w)))
                    (pointer (controls w))) w
  | MouseDown e =>
      withControls
        (mkControls (orbit (controls w))
                    (onMouseDown e (pointer (controls w)))) w
  | MouseMove e => withControls (onMouseMove (viewport w) e (controls w)) w
  | MouseUp e =>
      withControls
        (mkControls (orbit (controls w))
                    (onMouseUp e (pointer (controls w)))) w
  | TouchStart e =>
      withControls
        (mkControls (orbit (controls w))
                    (onTouchStart e (pointer (controls w)))) w
  | TouchMove e => withControls (stateOf (onTouchMove e (controls w))) w
  end.

Definition run (ops : list Op) (w : World) : World := fold_left step ops w.

End Component.

(** ** The [roundRect] polyfill *)

Inductive PathCmd :=
| BeginPath
| MoveTo (x y : R)
| ArcTo (x1 y1 x2 y2 r : R)
| ClosePath.

(** The two [if]s that shrink the radius. *)
Definition polyfillRadius (w h r : R) : R :=
  let r := if Rltb w (2 * r) then w / 2 else r in
  let r := if Rltb h (2 * r) then h / 2 else r in
  r.

(** The function [ensureRoundRect] installs when the context has no
    [roundRect] of its own. *)
Definition roundRectPolyfill (x y w h r : R) : list PathCmd :=
  let r := polyfillRadius w h r in
  [ BeginPath;
    MoveTo (x + r) y;
    ArcTo (x + w) y (x + w) (y + h) r;
    ArcTo (x + w) (y + h) x (y + h) r;
    ArcTo x (y + h) x y r;
    ArcTo x y (x + w) y r;
    ClosePath ].

(** ** The application shell (App.tsx): the queue and its transport *)

Module App.

Record State := mkState {
  currentSong : option Song;
  isPlaying : bool;
  currentTime : R;
  duration : R;
  queue : list Song
}.

Inductive Direction := Next | Prev.

(** [s.id === currentSong?.id]. *)
Definition sameId (current : option Song) (s : Song) : bool :=
  match current with
  | Some c => String.eqb (id s) (id c)
  | None => false
  end.

(** [queue.findIndex(...)]: the first index that matches, or -1. *)
Fixpoint findIndexFrom (current : option Song) (i : Z) (q : list Song) : Z :=
  match q with
  | [] => (-1)%Z
  | s :: rest =>
      if sameId current s then i else findIndexFrom current (i + 1)%Z rest
  end.

Definition findIndex (current : option Song) (q : list Song) : Z :=
  findIndexFrom current 0%Z q.

(** [queue[i]]: [undefined] outside the queue. *)
Definition item (q : list Song) (i : Z) : option Song :=
  if (i <? 0)%Z then None else nth_error q (Z.to_nat i).

Definition togglePlay (st : State) : State :=
  mkState (currentSong st) (negb (isPlaying st)) (currentTime st)
          (duration st) (queue st).

(** [playSong], also on the [undefined] an index outside the queue
    gives. *)
Definition playSong (s : option Song) (st : State) : State :=
  mkState s true (currentTime st) (duration st) (queue st).

(** [skipTrack].  On an empty queue the remainder is NaN and the song
    [undefined]. *)
Definition skipTrack (direction : Direction) (st : State) : State :=
  let currentIndex := findIndex (currentSong st) (queue st) in
  let len := Z.of_nat (List.length (queue st)) in
  if (len =? 0)%Z then playSong None st
  else
    let nextIndex :=
      match direction with
      | Next => Z.rem (currentIndex + 1) len
      | Prev => Z.rem (currentIndex - 1 + len) len
      end in
    playSong (item (queue st) nextIndex) st.

End App.

(** ** Durations of playlist entries (services/youtubeService) *)

(** [\d]. *)
Definition isDigit (a : ascii) : bool :=
  (48 <=? nat_of_ascii a)%nat && (nat_of_ascii a <=? 57)%nat.

(** [\d+], greedy: the longest run of digits at the head, and the rest. *)
Fixpoint digitRun (s : string) : string * string :=
  match s with
  | String a rest =>
      if isDigit a then
        let '(ds, r) := digitRun rest in (String a ds, r)
      else (EmptyString, s)
  | EmptyString => (EmptyString, EmptyString)
  end.

(** [(?:(\d+)X)?] at the head of [s]: the digits captured, if the group
    matches, and what is left to match.  (A shorter run of digits is
    followed by a digit, so giving digits back never helps.) *)
Definition optionalComponent (unit : ascii) (s : string)
    : option string * string :=
  match digitRun s with
  | (String d ds, String u rest) =>
      if Ascii.eqb u unit then (Some (String d ds), rest) else (None, s)
  | _ => (None, s)
  end.

(** What follows the leftmost ["PT"]; everything after it is optional,
    so the pattern matches there or nowhere. *)
Fixpoint afterPT (s : string) : option string :=
  match s with
  | String a rest =>
      match rest with
      | String b rest' =>
          if Ascii.eqb a "P" && Ascii.eqb b "T" then Some rest'
          else afterPT rest
      | EmptyString => None
      end
  | EmptyString => None
  end.

(** [parseInt(group || '0', 10)] on a captured run of digits.  (Numbers
    are exact: the rounding of integers beyond 2^53 is not modelled.) *)
Definition parseDigits (group : option string) : N :=
  match group with
  | Some ds =>
      match NilEmpty.uint_of_string ds with
      | Some d => N.of_uint d
      | None => 0%N
      end
  | None => 0%N
  end.

Definition parseDuration (isoDuration : string) : N :=
  match afterPT isoDuration with
  | None => 0%N
  | Some r =>
      let '(h, r) := optionalComponent "H" r in
      let '(m, r) := optionalComponent "M" r in
      let '(sec, _) := optionalComponent "S" r in
      let hours := parseDigits h in
      let minutes := parseDigits m in
      let seconds := parseDigits sec in
      (hours * 3600 + minutes * 60 + seconds)%N
  end.

(** An ISO 8601 duration as the playlist service writes it: an optional
    count of days, then ["T"] and the hours, minutes and seconds that
    are there. *)
Definition decimal (n : N) : string := NilZero.string_of_uint (N.to_uint n).

Definition component (n : option N) (unit : string) : string :=
  match n with
  | Some n => String.append (decimal n) unit
  | None => EmptyString
  end.

Definition timePart (h m s : option N) : string :=
  String.append (component h "H")
    (String.append (component m "M") (component s "S")).

Definition isoDuration (days : option N) (h m s : option N) : string :=
  String.append "P"
    (String.append (component days "D")
       (String.append "T" (timePart h m s))).

Definition secondsOf (n : option N) : N :=
  match n with Some n => n | None => 0%N end.

(** No ["P"] anywhere in the string. *)
Fixpoint noP (s : string) : bool :=
  match s with
  | String a rest => negb (Ascii.eqb a "P") && noP rest
  | EmptyString => true
  end.

(** ** The spectrum bars (components/Visualizer) *)

Module Visualizer.

Record Rect := mkRect { x : R; y : R; width : R; height : R }.

Definition svgWidth : R := 100.
Definition svgHeight : R := 40.

(** [analyzer.frequencyBinCount] for an [fftSize] of 64. *)
Definition bufferLength : nat := 32.

Definition barWidth : R := svgWidth / INR bufferLength.

(** The attributes of the rectangle for datum [d] at index [i]. *)
Definition bar (d : Byte.byte) (i : nat) : Rect :=
  let v := IZR (Z.of_N (Byte.to_N d)) in
  mkRect (INR i * barWidth)
         (svgHeight - (v / 255) * svgHeight)
         (barWidth - 1)
         ((v / 255) * svgHeight).

(** One rectangle per byte of the frequency data. *)
Definition bars (data : list Byte.byte) : list Rect := forEachIdx bar data.

End Visualizer.

(** ** Reading a canvas back *)

(** The widths of the rectangles painted in the colour of the progress
    fill. *)
Fixpoint progressFillWidths (l : list DrawOp) : list R :=
  match l with
  | [] => []
  | FillRoundRect (Color c) _ _ _ w _ _ :: rest =>
      if String.eqb c fillColor then w :: progressFillWidths rest
      else progressFillWidths rest
  | _ :: rest => progressFillWidths rest
  end.

(** The texts drawn in a given font. *)
Definition sameFont (a b : Font) : bool :=
  match a, b with
  | TitleFont, TitleFont | ArtistFont, ArtistFont | TimeFont, TimeFont => true
  | IconFont x, IconFont y => Reqb x y
  | _, _ => false
  end.

Fixpoint textsIn (font : Font) (l : list DrawOp) : list string :=
  match l with
  | [] => []
  | FillText f _ text _ _ :: rest =>
      if sameFont f font then text :: textsIn font rest
      else textsIn font rest
  | _ :: rest => textsIn font rest
  end.

(** A drawing operation that stays on the 512 by 760 canvas: a
    rectangle with all of its area, a text or glyph with its anchor. *)
Definition onCanvas (op : DrawOp) : Prop :=
  match op with
  | ClearRect x y w h
  | FillRoundRect _ _ x y w h _
  | StrokeRoundRect _ _ x y w h _ =>
      0 <= x /\ 0 <= y /\ 0 <= w /\ 0 <= h /\ x + w <= 512 /\ y + h <= 760
  | FillText _ _ _ x y
  | FillGlyph _ _ _ x y => 0 <= x <= 512 /\ 0 <= y <= 760
  end.

(** ** Runs of input events *)

(** A run of wheel ticks. *)
Definition wheelTicks (deltas : list R) (o : Orbit) : Orbit :=
  fold_left (fun o deltaY => onWheel deltaY o) deltas o.

(** A mouse gesture up to its release: the press, then the moves. *)
Definition mouseGesture (v : Viewport) (press : MouseEvent)
    (moves : list MouseEvent) (c : Controls) : Controls :=
  fold_left (fun c e => onMouseMove v e c) moves
    (mkControls (orbit c) (onMouseDown press (pointer c))).

(** The distances the successive moves cover, each from the position
    before it, and their sum: the movement a gesture accumulates. *)
Fixpoint stepDistances (x y : R) (moves : list MouseEvent) : list R :=
  match moves with
  | [] => []
  | e :: rest =>
      moveDistance x y (clientX e) (clientY e)
      :: stepDistances (clientX e) (clientY e) rest
  end.

Definition pathLength (press : MouseEvent) (moves : list MouseEvent) : R :=
  fold_right Rplus 0 (stepDistances (clientX press) (clientY press) moves).

(** How far from the press the gesture ends. *)
Definition netDistance (press : MouseEvent) (moves : list MouseEvent) : R :=
  let final := last moves press in
  moveDistance (clientX press) (clientY press) (clientX final) (clientY final).

(** ** Reading a loader trace *)

(** A load that sends the loader into its retry branch, and the delay
    the loader then waits. *)
Definition isFailure (r : LoadResult) : bool :=
  match r with
  | LoadError => true
  | _ => invalidImage r
  end.

Definition failureDelay (r : LoadResult) : R :=
  match r with
  | LoadError => 1000
  | _ => 500
  end.

(** A schedule of "500ms, then 1000ms": the first wait is 500, the
    second 1000. *)
Definition halfThenFullSecond (waits : list R) : Prop :=
  match waits with
  | [] => True
  | [w1] => w1 = 500
  | w1 :: w2 :: _ => w1 = 500 /\ w2 = 1000
  end.

(** ** Predicates the properties are stated with *)

(** No canvas the renderer hands out carries a [data-playing] entry. *)
Definition plainCanvas (c : Card) : Prop :=
  dataset (image (texture c)) = [].

Definition positions (w : World) : list Vec3 :=
  map position (cards (gallery w)).

(** At index [i] of [n], a card sits on its layout position up to the
    idle bob: x and z as laid out, y within 0.5 of it. *)
Definition nearLayout (n i : nat) (v : Vec3) : Prop :=
  vx v = vx (layoutPosition n i) /\
  vz v = vz (layoutPosition n i) /\
  Rabs (vy v - vy (layoutPosition n i)) <= 0.5.

Definition laidOut (n : nat) (w : World) : Prop :=
  songCount w = n /\
  List.length (cards (gallery w)) = n /\
  forall i c, nth_error (cards (gallery w)) i = Some c ->
              nearLayout n i (position c).

(** What a frame does to the positions. *)
Definition bob (n : nat) (fr : R) (v : Vec3) (i : nat) : Vec3 :=
  mkVec3 (vx v)
         (vy (layoutPosition n i) + sin ((fr + INR i * 500) * 0.2) * 0.5)
         (vz v).

Definition pitchInRange (c : Controls) : Prop :=
  -1.2 <= orbitPitch (orbit c) <= 1.2.

(** ** More predicates and runs *)

(** The point [animate] steers the camera to: [targetX], [targetY] and
    [targetZ] of the spherical coordinates. *)
Definition orbitTarget (o : Orbit) : Vec3 :=
  let radius := targetZoom o in
  mkVec3 (radius * sin (orbitAngle o) * cos (orbitPitch o))
         (radius * sin (orbitPitch o))
         (radius * cos (orbitAngle o) * cos (orbitPitch o)).

(** The square of the distance from the origin. *)
Definition normSq (v : Vec3) : R := vx v * vx v + vy v * vy v + vz v * vz v.

(** [n] frames of the render loop in a row. *)
Definition frames (n : nat) (w : World) : World := Nat.iter n animate w.

(** Zoom and pitch within the bounds of the mouse path, and the camera
    no farther than 300 from the origin. *)
Definition cameraInRange (w : World) : Prop :=
  10 <= targetZoom (orbit (controls w)) <= 300 /\
  -1.2 <= orbitPitch (orbit (controls w)) <= 1.2 /\
  normSq (cameraPosition (camera w)) <= 300 * 300.

(** One card per song, in order, each at scale (1, 1, 1). *)
Definition followsSongs (songs : list Song) (w : World) : Prop :=
  map song (cards (gallery w)) = songs /\
  Forall (fun c => scale c = mkVec3 1 1 1) (cards (gallery w)).

(** A one-finger gesture up to its release: the finger lands, then
    moves; a move that raises leaves its state behind like any other. *)
Definition oneFinger (t : Touch) : TouchEvent := mkTouchEvent [t] [t].

Definition touchGesture (start : Touch) (moves : list Touch) (c : Controls)
    : Controls :=
  fold_left (fun c t => stateOf (onTouchMove (oneFinger t) c)) moves
    (mkControls (orbit c) (onTouchStart (oneFinger start) (pointer c))).

(** The distances between successive positions of the finger. *)
Fixpoint touchSteps (x y : R) (moves : list Touch) : list R :=
  match moves with
  | [] => []
  | t :: rest =>
      moveDistance x y (touchX t) (touchY t)
      :: touchSteps (touchX t) (touchY t) rest
  end.

(** Steady playback: the same song and playing flag throughout, and a
    time that never goes back. *)
Fixpoint steadyFrom (prev : Playback) (ps : list Playback) : Prop :=
  match ps with
  | [] => True
  | p :: rest =>
      id (currentSong p) = id (currentSong prev) /\
      isPlaying p = isPlaying prev /\
      currentTime prev <= currentTime p /\
      steadyFrom p rest
  end.

(** What a gallery [g] has to do with the gallery [g0] it came from
    under steady playback, [prev] being the last playback rendered:
    between the two, every card was redrawn at most once per half second
    that [lastTimeRef] advanced. *)
Definition throttled (g0 g : Gallery) (prev : Playback) : Prop :=
  Forall plainCanvas (cards g) /\
  lastDeps g = Some (depsOf prev) /\
  lastTimeRef g <= currentTime prev /\
  List.length (cards g) = List.length (cards g0) /\
  forall i c0 c,
    nth_error (cards g0) i = Some c0 -> nth_error (cards g) i = Some c ->
    (version (texture c0) <= version (texture c))%nat /\
    INR (version (texture c) - version (texture c0)) * 0.5
      <= lastTimeRef g - lastTimeRef g0.

(** What "truncated with a trailing ellipsis by shortening until it
    fits" asks of the text shown for [text]: a text that fits is shown
    as it is; one that does not is shown as a prefix of itself followed
    by the ellipsis, the longest prefix with which that fits (no
    character being left otherwise). *)
Definition truncatedTo (measure : string -> R) (maxWidth : R)
    (text shown : string) : Prop :=
  (measure text <= maxWidth /\ shown = text) \/
  (maxWidth < measure text /\
   exists k,
     (k <= String.length text)%nat /\
     shown = String.append (String.substring 0 k text) ellipsis /\
     (measure shown <= maxWidth \/ k = 0%nat) /\
     forall k', (k < k' <= String.length text)%nat ->
       maxWidth <
       measure (String.append (String.substring 0 k' text) ellipsis)).

(** The number of frames of the render loop in a run. *)
Definition isFrame (op : Op) : bool :=
  match op with Frame => true | _ => false end.

Definition framesIn (ops : list Op) : nat :=
  List.length (filter isFrame ops).

(** The state of the positions after [k] frames: the frame counter is
    [k] times 0.002, and every card sits where it was laid out before
    the first frame, and where the last frame's bob put it after. *)
Definition bobbedAt (n k : nat) (w : World) : Prop :=
  songCount w = n /\
  frame w = INR k * 0.002 /\
  forall i c, nth_error (cards (gallery w)) i = Some c ->
    position c =
    match k with
    | O => layoutPosition n i
    | S _ => bob n (frame w) (layoutPosition n i) i
    end.

(** ** Sample data

    A browser whose text measure gives every character ten pixels, and a
    few songs: two of the bundled ones, and a playlist entry whose
    duration came out as 0. *)

Definition tenPerChar (_ : Font) (text : string) : R :=
  10 * INR (String.length text).

Definition midnightCity : Song :=
  mkSong "1" "Midnight City" "M83" "Hurry Up, We're Dreaming"
         "cover-1" "audio-1" 252 "Synthpop" None.

Definition starboy : Song :=
  mkSong "2" "Starboy" "The Weeknd" "Starboy"
         "cover-2" "audio-2" 230 "R&B" None.

Definition levitating : Song :=
  mkSong "3" "Levitating" "Dua Lipa" "Future Nostalgia"
         "cover-3" "audio-3" 203 "Pop" None.

Definition liveStream : Song :=
  mkSong "yt-live" "Live" "Channel" "YouTube Playlist"
         "thumb" "" 0 "Various" (Some "live"%string).

Definition longTitled : Song :=
  mkSong "yt-long"
         "A very long song title that certainly does not fit the card face"
         "An artist whose name is every bit as long as the title of the song"
         "YouTube Playlist" "thumb" "" 180 "Various" (Some "long"%string).

(** A ray caster that always hits the card mesh of the first card. *)
Definition hitFirstCard (_ : Camera) (_ : R * R) (_ : list Card)
    : list Object3D :=
  [CardMesh 0].

(** * Properties *)

(** ** Numbers *)

Lemma Rltb_true (x y : R) : Rltb x y = true <-> x < y.
Proof. unfold Rltb; destruct (Rlt_dec x y); split; intros; try easy. Qed.

Lemma Rltb_false (x y : R) : Rltb x y = false <-> y <= x.
Proof.
  unfold Rltb; destruct (Rlt_dec x y); split; intros; try easy; lra.
Qed.

Lemma Rleb_true (x y : R) : Rleb x y = true <-> x <= y.
Proof. unfold Rleb; destruct (Rle_dec x y); split; intros; try easy. Qed.

Lemma Rleb_false (x y : R) : Rleb x y = false <-> y < x.
Proof.
  unfold Rleb; destruct (Rle_dec x y); split; intros; try easy; lra.
Qed.

Lemma Reqb_true (x y : R) : Reqb x y = true <-> x = y.
Proof. unfold Reqb; destruct (Req_dec_T x y); split; intros; try easy. Qed.

Lemma Reqb_false (x y : R) : Reqb x y = false <-> x <> y.
Proof. unfold Reqb; destruct (Req_dec_T x y); split; intros; try easy. Qed.

Lemma clamp_bounds (lo hi x : R) : lo <= hi -> lo <= clamp lo hi x <= hi.
Proof.
  intros Hlh; unfold clamp, Rmax, Rmin.
  destruct (Rle_dec hi x); destruct (Rle_dec lo _); lra.
Qed.

Lemma clamp_id (lo hi x : R) : lo <= x <= hi -> clamp lo hi x = x.
Proof.
  intros Hx; unfold clamp, Rmax, Rmin.
  destruct (Rle_dec hi x); destruct (Rle_dec lo _); lra.
Qed.

Lemma clamp_low (lo hi x : R) : lo <= hi -> x <= lo -> clamp lo hi x = lo.
Proof.
  intros Hlh Hx; unfold clamp, Rmax, Rmin.
  destruct (Rle_dec hi x); destruct (Rle_dec lo _); lra.
Qed.

(** ** The card texture renderer *)

Section RendererFacts.

Variable measureText : Font -> string -> R.
Variable context2d : bool.

Local Abbreviation draw := (drawPlayerCanvas measureText context2d).

Lemma maxTitleWidth_value : maxTitleWidth = 512 - 36 - 10.
Proof. unfold maxTitleWidth, displayWidth, canvasW, padding; lra. Qed.

Lemma progressBarWidth_value : progressBarWidth = 476.
Proof. unfold progressBarWidth, displayWidth, canvasW, padding; lra. Qed.

Lemma string_length_0 (s : string) : String.length s = 0%nat -> s = EmptyString.
Proof. destruct s; simpl; intros; [reflexivity | discriminate]. Qed.

(** When the loop ends, its condition is false: the text with the
    ellipsis fits, or no character is left. *)
Lemma shorten_exit (font : Font) (maxWidth : R) (text : string) :
  let r := shorten measureText font maxWidth text in
  measureText font (String.append r ellipsis) <= maxWidth \/ r = EmptyString.
Proof.
  functional induction (shorten measureText font maxWidth text)
    as [text _ IH | text Hc].
  - exact IH.
  - apply andb_false_iff in Hc as [Hw | Hl].
    + left; apply Rltb_false; exact Hw.
    + right; apply string_length_0.
      apply Nat.ltb_ge in Hl; lia.
Qed.

Lemma truncateText_fits (font : Font) (maxWidth : R) (text : string) :
  measureText font ellipsis <= maxWidth ->
  measureText font (truncateText measureText font maxWidth text) <= maxWidth.
Proof.
  intros Hdots; unfold truncateText.
  destruct (Rltb maxWidth (measureText font text)) eqn:Hw.
  - destruct (shorten_exit font maxWidth text) as [Hfit | Hempty].
    + exact Hfit.
    + rewrite Hempty; simpl; exact Hdots.
  - apply Rltb_false; exact Hw.
Qed.

Lemma textsIn_app (font : Font) (a b : list DrawOp) :
  textsIn font (a ++ b) = textsIn font a ++ textsIn font b.
Proof.
  induction a as [|op a IH]; simpl; [reflexivity|].
  destruct op as [| | | f ? ? ? ? |]; try exact IH.
  destruct (sameFont f font); simpl; rewrite IH; reflexivity.
Qed.

Lemma textsIn_progressFillOps (font : Font) (active : bool) (progress : R) :
  textsIn font (progressFillOps active progress) = [].
Proof.
  unfold progressFillOps; destruct (active && Rltb 0 progress); reflexivity.
Qed.

Lemma draw_titles (s : Song) (active playing : bool) (progress : R) :
  textsIn TitleFont (ops (draw s active playing progress)) =
  if context2d then [truncateText measureText TitleFont maxTitleWidth (title s)]
  else [].
Proof.
  unfold drawPlayerCanvas; destruct context2d; simpl; [|reflexivity].
  rewrite textsIn_app, textsIn_progressFillOps; reflexivity.
Qed.

Lemma draw_artists (s : Song) (active playing : bool) (progress : R) :
  textsIn ArtistFont (ops (draw s active playing progress)) =
  if context2d
  then [truncateText measureText ArtistFont maxTitleWidth (artist s)]
  else [].
Proof.
  unfold drawPlayerCanvas; destruct context2d; simpl; [|reflexivity].
  rewrite textsIn_app, textsIn_progressFillOps; reflexivity.
Qed.

Lemma substring_all (t : string) :
  String.substring 0 (String.length t) t = t.
Proof. induction t as [|a t IH]; simpl; [reflexivity | rewrite IH; reflexivity]. Qed.

Lemma substring_substring (t : string) :
  forall k n, (k <= n)%nat ->
    String.substring 0 k (String.substring 0 n t) = String.substring 0 k t.
Proof.
  induction t as [|a t IH]; intros [|k] [|n] Hkn; simpl; try reflexivity;
    try lia.
  rewrite IH by lia; reflexivity.
Qed.

Lemma substring_length (t : string) :
  forall n, (n <= String.length t)%nat ->
    String.length (String.substring 0 n t) = n.
Proof.
  induction t as [|a t IH]; intros [|n] Hn; simpl in *; try reflexivity;
    try lia.
  rewrite IH by lia; reflexivity.
Qed.

(** What the loop leaves: a prefix of the text, the longest one with
    which the ellipsis still fits. *)
Lemma shorten_prefix (font : Font) (maxWidth : R) (text : string) :
  let r := shorten measureText font maxWidth text in
  exists k,
    (k <= String.length text)%nat /\
    r = String.substring 0 k text /\
    (measureText font (String.append r ellipsis) <= maxWidth \/ k = 0%nat) /\
    forall k', (k < k' <= String.length text)%nat ->
      maxWidth <
      measureText font (String.append (String.substring 0 k' text) ellipsis).
Proof.
  functional induction (shorten measureText font maxWidth text)
    as [text Hc IH | text Hc].
  - apply andb_true_iff in Hc as [Hwide Hlen].
    apply Rltb_true in Hwide; apply Nat.ltb_lt in Hlen.
    destruct IH as [k [Hk [Hr [Hexit Hmaxi]]]].
    assert (Hdl : String.length (dropLast text) = (String.length text - 1)%nat)
      by (apply substring_length; lia).
    rewrite Hdl in Hk, Hmaxi.
    exists k; split; [lia|]; split.
    + rewrite Hr; apply substring_substring; lia.
    + split; [exact Hexit|].
      intros k' Hk'.
      destruct (Nat.eq_dec k' (String.length text)) as [-> | Hne].
      * rewrite substring_all; exact Hwide.
      * specialize (Hmaxi k' ltac:(lia)).
        unfold dropLast in Hmaxi.
        rewrite substring_substring in Hmaxi by lia; exact Hmaxi.
  - exists (String.length text); split; [lia|]; split.
    + symmetry; apply substring_all.
    + split; [|intros k' Hk'; lia].
      apply andb_false_iff in Hc as [Hw | Hl].
      * left; apply Rltb_false; exact Hw.
      * right; apply Nat.ltb_ge in Hl; lia.
Qed.

Lemma truncateText_truncatedTo (font : Font) (maxWidth : R) (text : string) :
  truncatedTo (measureText font) maxWidth text
    (truncateText measureText font maxWidth text).
Proof.
  unfold truncatedTo, truncateText.
  destruct (Rltb maxWidth (measureText font text)) eqn:Hw.
  - right; apply Rltb_true in Hw; split; [exact Hw|].
    destruct (shorten_prefix font maxWidth text)
      as [k [Hk [Hr [Hexit Hmaxi]]]].
    exists k; split; [exact Hk|]; split; [rewrite <- Hr; reflexivity|].
    split; [exact Hexit | exact Hmaxi].
  - left; apply Rltb_false in Hw; auto.
Qed.

(** C7.  Whatever the song and the flags, the canvas is 512 by 760.  The
    text drawn in the title font is the title of the song, and the text
    drawn in the artist font its artist, each truncated with a trailing
    ellipsis: shown as it is when it fits into 512 - 36 - 10 = 466
    pixels, and otherwise cut to its longest prefix with which the
    ellipsis fits, followed by the ellipsis.  Either way what is drawn
    measures at most 466 pixels in its font, however long the strings of
    the song are.  The browser's text measure is a parameter; what is
    asked of it is that the three dots of the ellipsis alone fit. *)
Theorem drawPlayerCanvas_size_and_text_fit
    (Hdots : forall font, measureText font ellipsis <= 466)
    (s : Song) (active playing : bool) (progress : R) :
  let cv := draw s active playing progress in
  width cv = 512 /\ height cv = 760 /\
  (forall text, In text (textsIn TitleFont (ops cv)) ->
     measureText TitleFont text <= 512 - 36 - 10) /\
  (forall text, In text (textsIn ArtistFont (ops cv)) ->
     measureText ArtistFont text <= 512 - 36 - 10) /\
  (context2d = true ->
     textsIn TitleFont (ops cv) <> [] /\ textsIn ArtistFont (ops cv) <> []) /\
  (context2d = true ->
     exists shownTitle shownArtist,
       textsIn TitleFont (ops cv) = [shownTitle] /\
       textsIn ArtistFont (ops cv) = [shownArtist] /\
       truncatedTo (measureText TitleFont) (512 - 36 - 10) (title s)
         shownTitle /\
       truncatedTo (measureText ArtistFont) (512 - 36 - 10) (artist s)
         shownArtist /\
       measureText TitleFont shownTitle <= 512 - 36 - 10 /\
       measureText ArtistFont shownArtist <= 512 - 36 - 10).
Proof.
  assert (Hmax : maxTitleWidth = 466) by (rewrite maxTitleWidth_value; lra).
  assert (Hfit : forall font text,
            measureText font (truncateText measureText font maxTitleWidth text)
            <= 512 - 36 - 10).
  { intros font text; rewrite <- maxTitleWidth_value.
    apply truncateText_fits; rewrite Hmax; apply Hdots. }
  cbv zeta; split; [|split; [|split; [|split; [|split]]]].
  - unfold drawPlayerCanvas; destruct context2d; reflexivity.
  - unfold drawPlayerCanvas; destruct context2d; reflexivity.
  - intros text Hin; rewrite draw_titles in Hin.
    destruct context2d; [|contradiction].
    destruct Hin as [<- | []]; apply Hfit.
  - intros text Hin; rewrite draw_artists in Hin.
    destruct context2d; [|contradiction].
    destruct Hin as [<- | []]; apply Hfit.
  - intros Hctx; rewrite draw_titles, draw_artists, Hctx.
    split; discriminate.
  - intros Hctx; rewrite draw_titles, draw_artists, Hctx.
    exists (truncateText measureText TitleFont maxTitleWidth (title s)),
           (truncateText measureText ArtistFont maxTitleWidth (artist s)).
    split; [reflexivity|]; split; [reflexivity|].
    assert (Hcut : forall font text w,
              w = maxTitleWidth ->
              truncatedTo (measureText font) w text
                (truncateText measureText font maxTitleWidth text)).
    { intros font text w ->; apply truncateText_truncatedTo. }
    split; [apply Hcut; symmetry; apply maxTitleWidth_value|].
    split; [apply Hcut; symmetry; apply maxTitleWidth_value|].
    split; apply Hfit.
Qed.

End RendererFacts.

Section ProgressFill.

Variable measureText : Font -> string -> R.
Variable context2d : bool.

Local Abbreviation draw := (drawPlayerCanvas measureText context2d).

Lemma progressFillWidths_app (a b : list DrawOp) :
  progressFillWidths (a ++ b) = progressFillWidths a ++ progressFillWidths b.
Proof.
  induction a as [|op a IH]; simpl; [reflexivity|].
  destruct op as [| paint ? ? ? ? ? ? | | |]; try exact IH.
  destruct paint as [| | |c]; try exact IH.
  destruct (String.eqb c fillColor); simpl; rewrite IH; reflexivity.
Qed.

Lemma progressFillWidths_fill (active : bool) (progress : R) :
  progressFillWidths (progressFillOps active progress) =
  if active && Rltb 0 progress then [progressBarWidth * progress] else [].
Proof.
  unfold progressFillOps; destruct (active && Rltb 0 progress); reflexivity.
Qed.

(** The fills of a drawn card: one, of width [progressBarWidth *
    progress], when a context was there, the card is active and the
    progress positive; none otherwise. *)
Lemma draw_progressFill (s : Song) (active playing : bool) (progress : R) :
  progressFillWidths (ops (draw s active playing progress)) =
  if context2d && (active && Rltb 0 progress)
  then [progressBarWidth * progress] else [].
Proof.
  unfold drawPlayerCanvas; destruct context2d; simpl; [|reflexivity].
  rewrite progressFillWidths_app, progressFillWidths_fill.
  simpl; rewrite app_nil_r; reflexivity.
Qed.

(** C3, as the code has it.  The progress fill is drawn only for an
    active card, and only when the progress is positive; its width is the
    track width (476) times the progress, which is not clamped.  So for
    every progress up to 1, negative ones included, the fill stays within
    the track; above 1 nothing holds it back. *)
Theorem progress_fill_within_track_up_to_one
    (s : Song) (active playing : bool) (progress : R) :
  let fills := progressFillWidths (ops (draw s active playing progress)) in
  (forall w, In w fills ->
     active = true /\ 0 < progress /\ w = 476 * progress /\
     0 < w /\ (progress <= 1 -> w <= progressBarWidth)) /\
  (active = false \/ progress <= 0 -> fills = []) /\
  (context2d = true -> active = true -> 0 < progress ->
     fills = [476 * progress]).
Proof.
  cbv zeta; rewrite draw_progressFill, progressBarWidth_value.
  split; [|split].
  - intros w Hin.
    destruct context2d, active; simpl in Hin; try contradiction.
    destruct (Rltb 0 progress) eqn:Hp; simpl in Hin; [|contradiction].
    destruct Hin as [<- | []]; apply Rltb_true in Hp.
    split; [reflexivity|]; split; [exact Hp|]; split; [reflexivity|].
    split; [lra | intros Hle; lra].
  - intros [-> | Hp]; [rewrite andb_false_r; reflexivity|].
    apply Rltb_false in Hp; rewrite Hp, !andb_false_r; reflexivity.
  - intros -> -> Hp; apply Rltb_true in Hp; rewrite Hp; reflexivity.
Qed.

End ProgressFill.

(** Settles the comparisons of concrete numbers a definition runs into. *)
Ltac decide_R :=
  repeat match goal with
  | |- context [Rltb ?a ?b] =>
      first [ rewrite (proj2 (Rltb_true a b)) by lra
            | rewrite (proj2 (Rltb_false a b)) by lra ]
  | |- context [Rleb ?a ?b] =>
      first [ rewrite (proj2 (Rleb_true a b)) by lra
            | rewrite (proj2 (Rleb_false a b)) by lra ]
  | |- context [Reqb ?a ?b] =>
      first [ rewrite (proj2 (Reqb_true a b)) by lra
            | rewrite (proj2 (Reqb_false a b)) by lra ]
  | |- context [Rabs ?a] =>
      first [ rewrite (Rabs_pos_eq a) by lra
            | rewrite (Rabs_left1 a) by lra ]
  end.

Lemma drawPlayerCanvas_size_and_text_fit_witness :
  let cv := drawPlayerCanvas tenPerChar true longTitled true true 0 in
  width cv = 512 /\ height cv = 760 /\
  (forall text, In text (textsIn TitleFont (ops cv)) ->
     tenPerChar TitleFont text <= 512 - 36 - 10) /\
  (forall text, In text (textsIn ArtistFont (ops cv)) ->
     tenPerChar ArtistFont text <= 512 - 36 - 10) /\
  (true = true ->
     textsIn TitleFont (ops cv) <> [] /\ textsIn ArtistFont (ops cv) <> []) /\
  (true = true ->
     exists shownTitle shownArtist,
       textsIn TitleFont (ops cv) = [shownTitle] /\
       textsIn ArtistFont (ops cv) = [shownArtist] /\
       truncatedTo (tenPerChar TitleFont) (512 - 36 - 10) (title longTitled)
         shownTitle /\
       truncatedTo (tenPerChar ArtistFont) (512 - 36 - 10) (artist longTitled)
         shownArtist /\
       tenPerChar TitleFont shownTitle <= 512 - 36 - 10 /\
       tenPerChar ArtistFont shownArtist <= 512 - 36 - 10).
Proof.
  apply (drawPlayerCanvas_size_and_text_fit tenPerChar true).
  intros font; unfold tenPerChar; simpl; lra.
Defined.

(** C3, as stated, fails.  For the playlist entry of duration 0 at
    second 150 the effect computes the progress 150 / 100; the fill of
    the active card is then 714 pixels wide on a track of 476. *)
Lemma progress_fill_exceeds_track :
  let progress := 150 / progressDivisor liveStream in
  let cv := drawPlayerCanvas tenPerChar true liveStream true true progress in
  progressFillWidths (ops cv) = [714] /\
  ~ (forall w, In w (progressFillWidths (ops cv)) ->
       0 <= w <= progressBarWidth).
Proof.
  cbv zeta.
  assert (Hd : progressDivisor liveStream = 100).
  { unfold progressDivisor; simpl; decide_R; reflexivity. }
  assert (Hf : progressFillWidths
                 (ops (drawPlayerCanvas tenPerChar true liveStream true true
                         (150 / progressDivisor liveStream))) = [714]).
  { rewrite draw_progressFill, Hd, progressBarWidth_value; simpl.
    decide_R; f_equal; lra. }
  split; [exact Hf|].
  intros Hall; rewrite Hf in Hall.
  specialize (Hall 714 (or_introl eq_refl)).
  rewrite progressBarWidth_value in Hall; lra.
Qed.

(** ** The playback-update effect *)

Section PlaybackFacts.

Variable measureText : Font -> string -> R.
Variable context2d : bool.

Local Abbreviation draw := (drawPlayerCanvas measureText context2d).
Local Abbreviation updateCard' := (updateCard measureText context2d).
Local Abbreviation render' := (render measureText context2d).
Local Abbreviation mount' := (mount measureText context2d).
Local Abbreviation renders' := (renders measureText context2d).

Lemma draw_dataset (s : Song) (active playing : bool) (progress : R) :
  dataset (draw s active playing progress) = [].
Proof. unfold drawPlayerCanvas; destruct context2d; reflexivity. Qed.

Lemma plainCanvas_not_wasPlaying (c : Card) :
  plainCanvas c -> wasPlaying c = false.
Proof. unfold plainCanvas, wasPlaying; intros ->; reflexivity. Qed.

Lemma forEachFrom_Forall {A B : Type} (P : B -> Prop) (f : A -> nat -> B)
    (xs : list A) :
  (forall x i, P (f x i)) -> forall idx, Forall P (forEachFrom f idx xs).
Proof.
  intros Hf; induction xs as [|x xs IH]; intros idx; simpl; constructor; auto.
Qed.

Lemma buildCards_plain (songs : list Song) (cur : Song) (playing : bool) :
  Forall plainCanvas (buildCards measureText context2d songs cur playing).
Proof.
  apply forEachFrom_Forall; intros s i.
  unfold plainCanvas, buildCard; simpl; apply draw_dataset.
Qed.

Lemma updateCard_plain (p : Playback) (lastTime : R) (c : Card) :
  plainCanvas c -> plainCanvas (updateCard' p lastTime c).
Proof.
  intros Hc; unfold updateCard.
  destruct (redrawsActive p lastTime c); [apply draw_dataset|].
  destruct (negb (isCurrent p c)); [|exact Hc].
  rewrite (plainCanvas_not_wasPlaying c Hc); exact Hc.
Qed.

(** A card that is not the current one comes out of the effect as it
    went in. *)
Lemma updateCard_not_current (p : Playback) (lastTime : R) (c : Card) :
  plainCanvas c -> isCurrent p c = false -> updateCard' p lastTime c = c.
Proof.
  intros Hc Hcur; unfold updateCard, redrawsActive; rewrite Hcur; simpl.
  rewrite (plainCanvas_not_wasPlaying c Hc); reflexivity.
Qed.

Lemma render_plain (p : Playback) (g : Gallery) :
  Forall plainCanvas (cards g) -> Forall plainCanvas (cards (render' p g)).
Proof.
  intros Hg; unfold render; simpl.
  destruct (runsEffect p g); [|exact Hg].
  simpl; rewrite Forall_forall in *; intros c Hin.
  apply in_map_iff in Hin as [c0 [<- Hin]].
  apply updateCard_plain; auto.
Qed.

Lemma mount_plain (songs : list Song) (p : Playback) :
  Forall plainCanvas (cards (mount' songs p)).
Proof. apply render_plain; simpl; apply buildCards_plain. Qed.

Lemma renders_plain (ps : list Playback) (g : Gallery) :
  Forall plainCanvas (cards g) -> Forall plainCanvas (cards (renders' ps g)).
Proof.
  revert g; induction ps as [|p ps IH]; intros g Hg; simpl; [exact Hg|].
  apply IH, render_plain, Hg.
Qed.

(** However the playback went since the mount, the effect leaves every
    card that is not the current one untouched: texture, version and
    all. *)
Lemma not_current_never_redrawn (songs : list Song) (p0 : Playback)
    (ps : list Playback) (p : Playback) (c : Card) :
  let g := renders' ps (mount' songs p0) in
  In c (cards g) -> isCurrent p c = false ->
  updateCard' p (lastTimeRef g) c = c.
Proof.
  intros g Hin Hcur; apply updateCard_not_current; [|exact Hcur].
  pose proof (renders_plain ps _ (mount_plain songs p0)) as Hall.
  rewrite Forall_forall in Hall; apply Hall, Hin.
Qed.

(** The active card is redrawn exactly when the effect runs with the
    time at least half a second away from [lastTimeRef], or equal to it. *)
Lemma redrawsActive_iff (p : Playback) (lastTime : R) (c : Card) :
  redrawsActive p lastTime c = true <->
  id (song c) = id (currentSong p) /\
  (0.5 <= Rabs (currentTime p - lastTime) \/ currentTime p = lastTime).
Proof.
  unfold redrawsActive, isCurrent, shouldUpdateTime, timeDiff.
  rewrite andb_true_iff, orb_true_iff, String.eqb_eq, Rleb_true, Reqb_true.
  split; intros [Hid Ht]; split; try exact Hid.
  - destruct Ht as [Ht | Ht]; [left; exact Ht | right].
    unfold Rabs in Ht; destruct (Rcase_abs _); lra.
  - destruct Ht as [Ht | ->]; [left; exact Ht | right].
    replace (lastTime - lastTime) with 0 by lra; apply Rabs_R0.
Qed.

Lemma progressDivisor_nonzero (s : Song) : progressDivisor s <> 0.
Proof.
  unfold progressDivisor; destruct (Reqb (duration s) 0) eqn:Hd.
  - lra.
  - apply Reqb_false; exact Hd.
Qed.

(** C10.  Whenever the effect redraws a card as the active one, the
    progress it hands to the renderer is the current time over the
    duration of the song, with 100 in place of a duration of 0; the
    divisor is never 0. *)
Theorem active_redraw_progress_divisor
    (p : Playback) (lastTime : R) (c : Card)
    (Hredraw : redrawsActive p lastTime c = true) :
  let d := progressDivisor (song c) in
  d <> 0 /\
  (duration (song c) <> 0 -> d = duration (song c)) /\
  (duration (song c) = 0 -> d = 100) /\
  texture (updateCard' p lastTime c) =
    mkTexture (draw (song c) true (isPlaying p) (currentTime p / d))
              (S (version (texture c))).
Proof.
  cbv zeta; split; [|split; [|split]].
  - apply progressDivisor_nonzero.
  - intros Hd; unfold progressDivisor.
    rewrite (proj2 (Reqb_false _ _) Hd); reflexivity.
  - intros Hd; unfold progressDivisor.
    rewrite (proj2 (Reqb_true _ _) Hd); reflexivity.
  - unfold updateCard; rewrite Hredraw; reflexivity.
Qed.

End PlaybackFacts.

Lemma active_redraw_progress_divisor_witness :
  let p := mkPlayback liveStream true 150 in
  let c := buildCard tenPerChar true 1 liveStream false liveStream 0 in
  redrawsActive p 0 c = true /\
  texture (updateCard tenPerChar true p 0 c) =
    mkTexture (drawPlayerCanvas tenPerChar true liveStream true true
                 (150 / progressDivisor liveStream)) 2.
Proof.
  assert (H : redrawsActive (mkPlayback liveStream true 150) 0
                (buildCard tenPerChar true 1 liveStream false liveStream 0)
              = true).
  { apply redrawsActive_iff; simpl; split; [reflexivity|].
    left; rewrite Rabs_pos_eq; lra. }
  split; [exact H|].
  apply (active_redraw_progress_divisor tenPerChar true _ _ _ H).
Defined.

Arguments drawPlayerCanvas : simpl never.

Ltac run_effect :=
  unfold mount, render, runsEffect, playbackEffect, buildCards, forEachIdx,
    updateCard, redrawsActive, isCurrent, shouldUpdateTime, timeDiff,
    progressDivisor, buildCard;
  simpl; repeat (progress decide_R; simpl).

(** C2, at a concrete run: playback moves on and the card it leaves is
    not redrawn.  Two songs are mounted with the first one current and
    playing; then the second becomes current.  The effect runs, and the
    second card gets the active face.  The first card keeps the texture
    it had: the active, playing face, at the same version.  The effect
    does test for a card that "was playing", through the [data-playing]
    entry of its canvas, but no canvas is ever given one. *)
Theorem left_card_keeps_active_texture :
  let pA := mkPlayback midnightCity true 0 in
  let pB := mkPlayback starboy true 0 in
  let g1 := mount tenPerChar true [midnightCity; starboy] pA in
  let g2 := render tenPerChar true pB g1 in
  let face := drawPlayerCanvas tenPerChar true in
  runsEffect pB g1 = true /\
  map song (cards g2) = [midnightCity; starboy] /\
  map (isCurrent pB) (cards g2) = [false; true] /\
  map texture (cards g1) =
    [mkTexture (face midnightCity true true (0 / 252)) 2;
     mkTexture (face starboy false true 0) 1] /\
  map texture (cards g2) =
    [mkTexture (face midnightCity true true (0 / 252)) 2;
     mkTexture (face starboy true true (0 / 230)) 2] /\
  face midnightCity true true (0 / 252) <> face midnightCity false false 0.
Proof.
  cbv zeta; split; [|split; [|split; [|split; [|split]]]].
  - reflexivity.
  - run_effect; reflexivity.
  - run_effect; reflexivity.
  - run_effect; reflexivity.
  - run_effect; reflexivity.
  - intros Heq; apply (f_equal ops) in Heq.
    apply (f_equal (fun l => nth 1 l (ClearRect 0 0 0 0))) in Heq.
    unfold drawPlayerCanvas in Heq; simpl in Heq; discriminate Heq.
Qed.

(** ** The layout *)

Lemma forEachFrom_nth {A B : Type} (f : A -> nat -> B) (xs : list A) :
  forall idx i,
    nth_error (forEachFrom f idx xs) i =
    option_map (fun x => f x (idx + i)%nat) (nth_error xs i).
Proof.
  induction xs as [|x xs IH]; intros idx [|i]; simpl; try reflexivity.
  - rewrite Nat.add_0_r; reflexivity.
  - rewrite IH; replace (S idx + i)%nat with (idx + S i)%nat by lia.
    reflexivity.
Qed.

Lemma forEachIdx_nth {A B : Type} (f : A -> nat -> B) (xs : list A) (i : nat) :
  nth_error (forEachIdx f xs) i = option_map (fun x => f x i) (nth_error xs i).
Proof. unfold forEachIdx; rewrite forEachFrom_nth; reflexivity. Qed.

Lemma forEachFrom_length {A B : Type} (f : A -> nat -> B) (xs : list A) :
  forall idx, List.length (forEachFrom f idx xs) = List.length xs.
Proof. induction xs as [|x xs IH]; intros idx; simpl; auto. Qed.

(** The three shells: the radius is fixed by the index modulo 3. *)
Lemma layoutRadius_shell (i : nat) :
  ((i mod 3 = 0)%nat /\ layoutRadius i = 35) \/
  ((i mod 3 = 1)%nat /\ layoutRadius i = 43) \/
  ((i mod 3 = 2)%nat /\ layoutRadius i = 51).
Proof.
  unfold layoutRadius.
  pose proof (Nat.mod_upper_bound i 3 ltac:(lia)) as Hlt.
  destruct (i mod 3)%nat as [|[|[|k]]]; [left | right; left | right; right | lia];
    split; try reflexivity; simpl; lra.
Qed.

Section LayoutFacts.

Variable measureText : Font -> string -> R.
Variable context2d : bool.

Local Abbreviation buildCards' := (buildCards measureText context2d).

Lemma buildCards_nth (songs : list Song) (cur : Song) (playing : bool)
    (i : nat) :
  nth_error (buildCards' songs cur playing) i =
  option_map
    (fun s => buildCard measureText context2d (List.length songs) cur playing s i)
    (nth_error songs i).
Proof. unfold buildCards; apply forEachIdx_nth. Qed.

(** C1.  The build places card [i] of [N] at
    [r (cos theta sin phi, sin theta sin phi, cos phi)] with
    [phi = acos (-1 + 2 i / N)], [theta = sqrt (N PI) phi] and
    [r = 35 + (i mod 3) 8]; the radius is 35, 43 or 51 as [i mod 3] is 0,
    1 or 2; and the position depends on nothing but [N] and [i]: any
    other build of as many songs puts its card [i] at the same place. *)
Theorem build_places_cards_on_shells
    (songs : list Song) (cur : Song) (playing : bool) (i : nat)
    (Hi : (i < List.length songs)%nat) :
  exists c,
    nth_error (buildCards' songs cur playing) i = Some c /\
    nth_error songs i = Some (song c) /\
    let n := INR (List.length songs) in
    let phi := acos (-1 + (2 * INR i) / n) in
    let theta := sqrt (n * PI) * phi in
    let r := 35 + INR (i mod 3) * 8 in
    position c =
      mkVec3 (r * cos theta * sin phi) (r * sin theta * sin phi)
             (r * cos phi) /\
    (((i mod 3 = 0)%nat /\ r = 35) \/
     ((i mod 3 = 1)%nat /\ r = 43) \/
     ((i mod 3 = 2)%nat /\ r = 51)) /\
    (forall songs' cur' playing' c',
       List.length songs' = List.length songs ->
       nth_error (buildCards' songs' cur' playing') i = Some c' ->
       position c' = position c).
Proof.
  destruct (nth_error songs i) as [s|] eqn:Hs.
  2: { apply nth_error_None in Hs; lia. }
  exists (buildCard measureText context2d (List.length songs) cur playing s i).
  split; [rewrite buildCards_nth, Hs; reflexivity|].
  split; [reflexivity|].
  cbv zeta; split; [reflexivity|].
  split; [exact (layoutRadius_shell i)|].
  intros songs' cur' playing' c' Hlen Hc'.
  rewrite buildCards_nth in Hc'.
  destruct (nth_error songs' i) as [s'|]; [|discriminate].
  injection Hc' as <-; simpl; rewrite Hlen; reflexivity.
Qed.

End LayoutFacts.

Lemma build_places_cards_on_shells_witness :
  exists c,
    nth_error (buildCards tenPerChar true [midnightCity; starboy; levitating]
                 starboy true) 1 = Some c /\
    song c = starboy /\
    position c =
      (let phi := acos (-1 + (2 * 1) / 3) in
       let theta := sqrt (3 * PI) * phi in
       mkVec3 (43 * cos theta * sin phi) (43 * sin theta * sin phi)
              (43 * cos phi)).
Proof.
  destruct (build_places_cards_on_shells tenPerChar true
              [midnightCity; starboy; levitating] starboy true 1
              ltac:(simpl; lia))
    as [c [Hc [Hs [Hp _]]]].
  exists c; split; [exact Hc|]; split.
  - simpl in Hs; injection Hs as Hs; symmetry; exact Hs.
  - rewrite Hp; simpl; f_equal; f_equal; try f_equal; try f_equal; try lra;
      repeat f_equal; lra.
Defined.

(** ** Positions over the life of the component *)

Section WorldFacts.

Variable measureText : Font -> string -> R.
Variable context2d : bool.

Local Abbreviation mountWorld' := (mountWorld measureText context2d).
Local Abbreviation step' := (step measureText context2d).
Local Abbreviation run' := (run measureText context2d).

Lemma updateCard_position (p : Playback) (lastTime : R) (c : Card) :
  position (updateCard measureText context2d p lastTime c) = position c.
Proof.
  unfold updateCard.
  destruct (redrawsActive p lastTime c); [reflexivity|].
  destruct (negb (isCurrent p c)); [|reflexivity].
  destruct (wasPlaying c); reflexivity.
Qed.

Lemma render_positions (p : Playback) (g : Gallery) :
  map position (cards (render measureText context2d p g)) =
  map position (cards g).
Proof.
  unfold render; simpl; destruct (runsEffect p g); [|reflexivity].
  simpl; rewrite map_map; apply map_ext, updateCard_position.
Qed.

(** Every operation but a frame of the render loop leaves every position
    as it is. *)
Lemma step_positions (w : World) (op : Op) :
  op <> Frame -> positions (step' w op) = positions w.
Proof.
  intros Hop; destruct op; try reflexivity; [congruence|].
  apply render_positions.
Qed.

Lemma mountWorld_laidOut (songs : list Song) (p : Playback) (v : Viewport) :
  laidOut (List.length songs) (mountWorld' songs p v).
Proof.
  split; [reflexivity|]; split.
  - pose proof (f_equal (@List.length _)
                  (render_positions p
                     (mkGallery
                        (buildCards measureText context2d songs
                           (currentSong p) (isPlaying p)) 0 None))) as Hlen.
    rewrite !length_map in Hlen; simpl in *.
    unfold mount; rewrite Hlen.
    apply forEachFrom_length.
  - intros i c Hc.
    assert (Hp : nth_error (positions (mountWorld' songs p v)) i =
                 Some (position c)).
    { unfold positions; rewrite nth_error_map, Hc; reflexivity. }
    unfold positions, mountWorld, mount in Hp; cbn [gallery] in Hp.
    rewrite render_positions in Hp; cbn [cards] in Hp.
    rewrite nth_error_map, buildCards_nth in Hp.
    destruct (nth_error songs i); [|discriminate].
    injection Hp as <-; simpl.
    repeat split; try reflexivity.
    rewrite Rminus_diag, Rabs_R0; lra.
Qed.

Lemma animateCard_position (n : nat) (fr : R) (c : Card) (i : nat) :
  position (animateCard n fr c i) =
  mkVec3 (vx (position c))
         (vy (layoutPosition n i) + sin ((fr + INR i * 500) * 0.2) * 0.5)
         (vz (position c)).
Proof. reflexivity. Qed.

Lemma animate_laidOut (n : nat) (w : World) :
  laidOut n w -> laidOut n (animate w).
Proof.
  intros [Hn [Hlen Hall]]; split; [exact Hn|]; split.
  - simpl; unfold forEachIdx; rewrite forEachFrom_length; exact Hlen.
  - intros i c Hc; simpl in Hc; rewrite forEachIdx_nth in Hc.
    destruct (nth_error (cards (gallery w)) i) as [c0|] eqn:Hc0;
      [|discriminate].
    injection Hc as <-.
    destruct (Hall i c0 Hc0) as [Hx [Hz _]].
    rewrite Hn, animateCard_position; unfold nearLayout; cbn [vx vy vz].
    split; [exact Hx|]; split; [exact Hz|].
    pose proof (SIN_bound ((frame w + 0.002 + INR i * 500) * 0.2)) as [Hlo Hhi].
    apply Rabs_le; lra.
Qed.

Lemma step_laidOut (n : nat) (w : World) (op : Op) :
  laidOut n w -> laidOut n (step' w op).
Proof.
  intros Hw; destruct op; try exact Hw; [apply animate_laidOut, Hw|].
  destruct Hw as [Hn [Hlen Hall]].
  pose proof (render_positions p (gallery w)) as Hpos.
  split; [exact Hn|]; split.
  - apply (f_equal (@List.length _)) in Hpos; rewrite !length_map in Hpos.
    cbn [step gallery]; rewrite Hpos; exact Hlen.
  - intros i c Hc; cbn [step gallery] in Hc.
    apply (f_equal (fun l => nth_error l i)) in Hpos.
    rewrite !nth_error_map, Hc in Hpos; simpl in Hpos.
    destruct (nth_error (cards (gallery w)) i) as [c0|] eqn:Hc0;
      [|discriminate].
    injection Hpos as ->; apply (Hall i c0 Hc0).
Qed.

Lemma run_laidOut (n : nat) (ops : list Op) :
  forall w, laidOut n w -> laidOut n (run' ops w).
Proof.
  induction ops as [|op ops IH]; intros w Hw; simpl; [exact Hw|].
  apply IH, step_laidOut, Hw.
Qed.

Lemma mountWorld_bobbedAt (songs : list Song) (p : Playback) (v : Viewport) :
  bobbedAt (List.length songs) 0 (mountWorld' songs p v).
Proof.
  split; [reflexivity|]; split; [simpl; lra|].
  intros i c Hc.
  assert (Hp : nth_error (positions (mountWorld' songs p v)) i =
               Some (position c)).
  { unfold positions; rewrite nth_error_map, Hc; reflexivity. }
  unfold positions, mountWorld, mount in Hp; cbn [gallery] in Hp.
  rewrite render_positions in Hp; cbn [cards] in Hp.
  rewrite nth_error_map, buildCards_nth in Hp.
  destruct (nth_error songs i); [|discriminate].
  injection Hp as <-; reflexivity.
Qed.

Lemma bobbedAt_xz (n k : nat) (w : World) (i : nat) (c : Card) :
  bobbedAt n k w -> nth_error (cards (gallery w)) i = Some c ->
  vx (position c) = vx (layoutPosition n i) /\
  vz (position c) = vz (layoutPosition n i).
Proof.
  intros [_ [_ Hall]] Hc; rewrite (Hall i c Hc).
  destruct k; split; reflexivity.
Qed.

Lemma animate_nth (n : nat) (w : World) (i : nat) (c : Card) :
  songCount w = n ->
  nth_error (cards (gallery (animate w))) i = Some c ->
  exists c0, nth_error (cards (gallery w)) i = Some c0 /\
             position c =
             mkVec3 (vx (position c0))
                    (vy (layoutPosition n i) +
                     sin ((frame w + 0.002 + INR i * 500) * 0.2) * 0.5)
                    (vz (position c0)).
Proof.
  intros Hn Hc; simpl in Hc; rewrite forEachIdx_nth in Hc.
  destruct (nth_error (cards (gallery w)) i) as [c0|] eqn:Hc0;
    [|discriminate].
  injection Hc as <-; exists c0; split; [reflexivity|].
  rewrite Hn; apply animateCard_position.
Qed.

Lemma animate_bobbedAt (n k : nat) (w : World) :
  bobbedAt n k w -> bobbedAt n (S k) (animate w).
Proof.
  intros Hw; pose proof Hw as [Hn [Hfr Hall]].
  split; [exact Hn|]; split.
  - cbn [animate frame]; rewrite Hfr, S_INR; lra.
  - intros i c Hc.
    destruct (animate_nth n w i c Hn Hc) as [c0 [Hc0 ->]].
    destruct (bobbedAt_xz n k w i c0 Hw Hc0) as [-> ->].
    reflexivity.
Qed.

Lemma step_bobbedAt (n k : nat) (w : World) (op : Op) :
  op <> Frame -> bobbedAt n k w -> bobbedAt n k (step' w op).
Proof.
  intros Hop [Hn [Hfr Hall]].
  assert (Hs : songCount (step' w op) = songCount w /\
               frame (step' w op) = frame w).
  { destruct op; split; reflexivity || congruence. }
  destruct Hs as [Hs Hf].
  split; [rewrite Hs; exact Hn|]; split; [rewrite Hf; exact Hfr|].
  intros i c Hc; rewrite Hf.
  pose proof (step_positions w op Hop) as Hpos.
  apply (f_equal (fun l => nth_error l i)) in Hpos.
  unfold positions in Hpos; rewrite !nth_error_map, Hc in Hpos.
  destruct (nth_error (cards (gallery w)) i) as [c0|] eqn:Hc0;
    [|discriminate].
  injection Hpos as ->; apply (Hall i c0 Hc0).
Qed.

Lemma run_bobbedAt (n : nat) (ops : list Op) :
  forall k w, bobbedAt n k w -> bobbedAt n (k + framesIn ops) (run' ops w).
Proof.
  unfold framesIn.
  induction ops as [|op ops IH]; intros k w Hw; simpl.
  - rewrite Nat.add_0_r; exact Hw.
  - destruct op; cbn [filter isFrame List.length];
      try (apply IH, step_bobbedAt; [discriminate | exact Hw]).
    rewrite Nat.add_succ_r; apply (IH (S k)), animate_bobbedAt, Hw.
Qed.

(** C8, as the code has it.  After any run of frames, playback updates,
    resizes and input events since the build, every card has the x and z
    it was laid out with and a y within 0.5 of its layout y; every
    operation other than a frame leaves all positions exactly as they
    are; a resize changes the camera aspect, the output size and the
    window size, nothing else; and the positions are not fixed: the
    frame counter is 0.002 times the number of frames run, a card is
    exactly on its layout position until the first frame, and from then
    on its y is its layout y plus 0.5 sin (0.2 (frame + 500 i)), which
    every frame of the render loop assigns anew with the counter it has
    just advanced by 0.002. *)
Theorem positions_fixed_up_to_bob
    (songs : list Song) (p : Playback) (v : Viewport) (ops : list Op) :
  let n := List.length songs in
  let w := run' ops (mountWorld' songs p v) in
  List.length (cards (gallery w)) = n /\
  (forall i c, nth_error (cards (gallery w)) i = Some c ->
     vx (position c) = vx (layoutPosition n i) /\
     vz (position c) = vz (layoutPosition n i) /\
     Rabs (vy (position c) - vy (layoutPosition n i)) <= 0.5) /\
  (forall op, op <> Frame -> positions (step' w op) = positions w) /\
  (forall v',
     let w' := step' w (Resize v') in
     gallery w' = gallery w /\
     cameraPosition (camera w') = cameraPosition (camera w) /\
     controls w' = controls w /\ frame w' = frame w /\
     aspect (camera w') = innerWidth v' / innerHeight v' /\
     rendererSize w' = (innerWidth v', innerHeight v')) /\
  frame w = INR (framesIn ops) * 0.002 /\
  (forall i c, nth_error (cards (gallery w)) i = Some c ->
     (framesIn ops = 0%nat -> position c = layoutPosition n i) /\
     (framesIn ops <> 0%nat ->
      vy (position c) =
      vy (layoutPosition n i) + 0.5 * sin (0.2 * (frame w + 500 * INR i)))) /\
  frame (step' w Frame) = frame w + 0.002 /\
  List.length (cards (gallery (step' w Frame))) = n /\
  (forall i c, nth_error (cards (gallery (step' w Frame))) i = Some c ->
     position c =
     mkVec3 (vx (layoutPosition n i))
            (vy (layoutPosition n i) +
             0.5 * sin (0.2 * (frame w + 0.002 + 500 * INR i)))
            (vz (layoutPosition n i))).
Proof.
  cbv zeta.
  destruct (run_laidOut (List.length songs) ops _
              (mountWorld_laidOut songs p v)) as [_ [Hlen Hall]].
  pose proof (run_bobbedAt (List.length songs) ops 0 _
                (mountWorld_bobbedAt songs p v)) as Hbob.
  rewrite Nat.add_0_l in Hbob.
  pose proof Hbob as [Hn [Hfr Hpos]].
  split; [exact Hlen|]; split; [exact Hall|]; split; [|split; [|split]].
  - intros op; apply step_positions.
  - intros v'; simpl; auto 7.
  - exact Hfr.
  - split; [|split; [reflexivity|split]].
    + intros i c Hc; specialize (Hpos i c Hc); split; intros Hk.
      * rewrite Hk in Hpos; exact Hpos.
      * destruct (framesIn ops); [congruence|].
        rewrite Hpos; unfold bob; cbn [vy].
        replace (0.2 * (frame (run' ops (mountWorld' songs p v)) +
                        500 * INR i))
          with ((frame (run' ops (mountWorld' songs p v)) + INR i * 500) *
                0.2) by lra.
        lra.
    + cbn [step animate gallery cards]; unfold forEachIdx.
      rewrite forEachFrom_length; exact Hlen.
    + intros i c Hc; cbn [step] in Hc.
      destruct (animate_nth _ _ i c Hn Hc) as [c0 [Hc0 ->]].
      destruct (bobbedAt_xz _ _ _ i c0 Hbob Hc0) as [-> ->].
      f_equal.
      replace (0.2 * (frame (run' ops (mountWorld' songs p v)) + 0.002 +
                      500 * INR i))
        with ((frame (run' ops (mountWorld' songs p v)) + 0.002 +
               INR i * 500) * 0.2) by lra.
      lra.
Qed.

End WorldFacts.

Lemma forEachFrom_map {A B C D : Type} (f : A -> nat -> B) (g : B -> D)
    (h : A -> C) (f' : C -> nat -> D) (xs : list A) :
  (forall x i, g (f x i) = f' (h x) i) ->
  forall idx, map g (forEachFrom f idx xs) = forEachFrom f' idx (map h xs).
Proof.
  intros Hfg; induction xs as [|x xs IH]; intros idx; simpl; [reflexivity|].
  rewrite Hfg, IH; reflexivity.
Qed.

Lemma animate_positions (w : World) :
  positions (animate w) =
  forEachIdx (bob (songCount w) (frame w + 0.002)) (positions w).
Proof.
  unfold positions, animate, forEachIdx; cbn [gallery cards].
  apply forEachFrom_map; intros c i; apply animateCard_position.
Qed.

(** C8, as stated, fails: one frame of the render loop after the build
    has already moved the card (its y is the layout y plus
    [0.5 sin 0.0004]). *)
Lemma frame_reassigns_position :
  let w0 := mountWorld tenPerChar true [midnightCity]
              (mkPlayback midnightCity false 0) (mkViewport 1280 720) in
  positions (step tenPerChar true w0 Frame) <> positions w0.
Proof.
  intros w0.
  assert (H0 : positions w0 = [layoutPosition 1 0]).
  { unfold positions, w0, mountWorld, mount; cbn [gallery].
    rewrite render_positions; reflexivity. }
  cbn [step]; rewrite animate_positions, H0.
  unfold forEachIdx; cbn [forEachFrom]; intros Heq.
  injection Heq as Heq; cbn [frame w0 mountWorld INR] in Heq.
  pose proof PI2_1 as Hpi.
  pose proof (sin_gt_0 ((0 + 0.002 + 0 * 500) * 0.2) ltac:(lra) ltac:(lra)).
  lra.
Qed.

(** ** Zoom *)

Lemma distanceMultiplier_clamp (z : R) :
  distanceMultiplier z = clamp 0.8 2.5 (z / 50).
Proof. reflexivity. Qed.

Lemma onWheel_targetZoom (deltaY : R) (o : Orbit) :
  targetZoom (onWheel deltaY o) =
  clamp 10 300
    (targetZoom o + deltaY * 0.12 * clamp 0.8 2.5 (targetZoom o / 50)).
Proof. reflexivity. Qed.

Lemma onWheel_in_bounds (deltaY : R) (o : Orbit) :
  10 <= targetZoom (onWheel deltaY o) <= 300.
Proof. rewrite onWheel_targetZoom; apply clamp_bounds; lra. Qed.

Lemma wheelTicks_in_bounds (deltas : list R) :
  forall o, 10 <= targetZoom o <= 300 ->
            10 <= targetZoom (wheelTicks deltas o) <= 300.
Proof.
  induction deltas as [|d deltas IH]; intros o Ho; simpl; [exact Ho|].
  apply IH, onWheel_in_bounds.
Qed.

Lemma sqrt_sq_0 (d : R) : 0 <= d -> sqrt (d * d + 0 * 0) = d.
Proof.
  intros Hd; replace (d * d + 0 * 0) with (d * d) by ring.
  apply sqrt_square, Hd.
Qed.

(** C4, as the code has it.  A wheel tick moves [targetZoom] by
    [deltaY * 0.12 * clamp (targetZoom / 50) 0.8 2.5] and clamps the
    result to [10, 300]; a two-finger move adds half the change of the
    finger distance, with no distance multiplier, and clamps the result
    to [15, 250].  So any run of wheel ticks that starts within
    [10, 300] stays within it, and a zoom-in tick at 10 leaves it at 10. *)
Theorem zoom_steps_clamped :
  (forall deltaY o,
     targetZoom (onWheel deltaY o) =
       clamp 10 300
         (targetZoom o + deltaY * 0.12 * clamp 0.8 2.5 (targetZoom o / 50)) /\
     orbitAngle (onWheel deltaY o) = orbitAngle o /\
     orbitPitch (onWheel deltaY o) = orbitPitch o) /\
  (forall t0 t1 changed c,
     exists c',
       onTouchMove (mkTouchEvent [t0; t1] changed) c = Returned c' /\
       targetZoom (orbit c') =
         clamp 15 250
           (targetZoom (orbit c) +
            (touchStartDistance (pointer c) - touchDistance t0 t1) * 0.5) /\
       touchStartDistance (pointer c') = touchDistance t0 t1) /\
  (forall deltas o,
     10 <= targetZoom o <= 300 ->
     10 <= targetZoom (wheelTicks deltas o) <= 300) /\
  (forall deltaY o,
     targetZoom o = 10 -> deltaY <= 0 -> targetZoom (onWheel deltaY o) = 10).
Proof.
  split; [|split; [|split]].
  - intros deltaY o; repeat split.
  - intros t0 t1 changed c; eexists; repeat split.
  - intros deltas o; apply wheelTicks_in_bounds.
  - intros deltaY o Hz Hd; rewrite onWheel_targetZoom, Hz.
    apply clamp_low; [lra|].
    pose proof (clamp_bounds 0.8 2.5 (10 / 50) ltac:(lra)) as Hm.
    nra.
Qed.

(** C4, as stated, fails for the pinch.  From the initial zoom 50, a
    wheel tick of 500 gives 110; two fingers land 10 apart and close to
    a point.  The step the claim describes is
    [10 * 0.5 * clamp (110 / 50) 0.8 2.5 = 11], to 121; the handler
    steps by 5, to 115. *)
Lemma pinch_ignores_distance_multiplier :
  let c0 := mkControls (onWheel 500 initialOrbit) initialPointer in
  let start := mkTouchEvent [mkTouch 10 0; mkTouch 0 0] [] in
  let move := mkTouchEvent [mkTouch 0 0; mkTouch 0 0] [] in
  let c1 := mkControls (orbit c0) (onTouchStart start (pointer c0)) in
  let c2 := stateOf (onTouchMove move c1) in
  let rawDelta := touchStartDistance (pointer c1) - 0 in
  targetZoom (orbit c1) = 110 /\ rawDelta = 10 /\
  targetZoom (orbit c2) = 115 /\
  targetZoom (orbit c2) <>
    clamp 15 250
      (targetZoom (orbit c1) +
       rawDelta * 0.5 * clamp 0.8 2.5 (targetZoom (orbit c1) / 50)).
Proof.
  cbv zeta.
  assert (Hz : targetZoom (onWheel 500 initialOrbit) = 110).
  { rewrite onWheel_targetZoom; simpl.
    rewrite (clamp_id 0.8 2.5) by lra.
    rewrite clamp_id; lra. }
  assert (Hd : touchDistance (mkTouch 10 0) (mkTouch 0 0) = 10).
  { unfold touchDistance; simpl.
    replace (10 - 0) with 10 by lra; replace (0 - 0) with 0 by lra.
    apply sqrt_sq_0; lra. }
  assert (H0 : touchDistance (mkTouch 0 0) (mkTouch 0 0) = 0).
  { unfold touchDistance; simpl.
    replace (0 - 0) with 0 by lra; apply sqrt_sq_0; lra. }
  cbn [onTouchStart onTouchMove touches stateOf orbit pointer
       setTouchStartDistance setTargetZoom touchStartDistance targetZoom].
  rewrite Hd, H0, !Hz.
  split; [reflexivity|]; split; [lra|].
  assert (H115 : Rmax 15 (Rmin 250 (110 + (10 - 0) * 0.5)) = 115)
    by (change (clamp 15 250 (110 + (10 - 0) * 0.5) = 115);
        rewrite clamp_id; lra).
  split; [exact H115|].
  rewrite H115, (clamp_id 0.8 2.5) by lra.
  rewrite clamp_id; lra.
Qed.

(** ** Drag, click and tap *)

Lemma moveDistance_3_4 (x y a : R) :
  0 <= a -> moveDistance x y (x + 3 * a) (y + 4 * a) = 5 * a.
Proof.
  intros Ha; unfold moveDistance.
  replace ((x + 3 * a - x) * (x + 3 * a - x) +
           (y + 4 * a - y) * (y + 4 * a - y))
    with ((5 * a) * (5 * a)) by ring.
  apply sqrt_square; lra.
Qed.

Lemma moveDistance_horizontal (x y d : R) :
  0 <= d -> moveDistance x y (x + d) y = d.
Proof.
  intros Hd; unfold moveDistance.
  replace ((x + d - x) * (x + d - x) + (y - y) * (y - y)) with (d * d) by ring.
  apply sqrt_square, Hd.
Qed.

(** One move with the button down: the flag is raised when this move
    alone covers more than 5px; the last position is recorded either way. *)
Lemma onMouseMove_down (v : Viewport) (e : MouseEvent) (c : Controls) :
  isMouseDown (pointer c) = true ->
  let p' := pointer (onMouseMove v e c) in
  isMouseDown p' = true /\
  lastMouseX p' = clientX e /\ lastMouseY p' = clientY e /\
  hasDragged p' =
    hasDragged (pointer c)
    || Rltb 5 (moveDistance (lastMouseX (pointer c)) (lastMouseY (pointer c))
                 (clientX e) (clientY e)).
Proof.
  intros Hdown; unfold onMouseMove; cbn [isMouseDown setMouse].
  rewrite Hdown; cbn [lastMouseX lastMouseY setMouse].
  destruct (Rltb 5 _); cbn; repeat split; try assumption.
  - rewrite orb_true_r; reflexivity.
  - rewrite orb_false_r; reflexivity.
Qed.

Lemma moves_hasDragged (v : Viewport) (moves : list MouseEvent) :
  forall c,
    isMouseDown (pointer c) = true ->
    hasDragged (pointer (fold_left (fun c e => onMouseMove v e c) moves c)) =
    hasDragged (pointer c)
    || existsb (Rltb 5)
         (stepDistances (lastMouseX (pointer c)) (lastMouseY (pointer c))
            moves).
Proof.
  induction moves as [|e moves IH]; intros c Hdown; simpl.
  - rewrite orb_false_r; reflexivity.
  - destruct (onMouseMove_down v e c Hdown) as [Hd [Hx [Hy Hh]]].
    rewrite (IH _ Hd), Hx, Hy, Hh, orb_assoc; reflexivity.
Qed.

Lemma gesture_hasDragged (v : Viewport) (press : MouseEvent)
    (moves : list MouseEvent) (c : Controls) :
  dragButton press = true ->
  hasDragged (pointer (mouseGesture v press moves c)) =
  existsb (Rltb 5) (stepDistances (clientX press) (clientY press) moves).
Proof.
  intros Hb; unfold mouseGesture, onMouseDown; rewrite Hb.
  rewrite moves_hasDragged; reflexivity.
Qed.

(** One move of at most 5px with the button down: neither the orbit nor
    the flag changes; the last position is recorded all the same. *)
Lemma onMouseMove_short (v : Viewport) (e : MouseEvent) (c : Controls) :
  isMouseDown (pointer c) = true ->
  moveDistance (lastMouseX (pointer c)) (lastMouseY (pointer c))
    (clientX e) (clientY e) <= 5 ->
  let c' := onMouseMove v e c in
  orbit c' = orbit c /\
  hasDragged (pointer c') = hasDragged (pointer c) /\
  isMouseDown (pointer c') = true /\
  lastMouseX (pointer c') = clientX e /\ lastMouseY (pointer c') = clientY e.
Proof.
  intros Hdown Hshort; unfold onMouseMove; cbn [isMouseDown setMouse].
  rewrite Hdown; cbn [lastMouseX lastMouseY setMouse].
  rewrite (proj2 (Rltb_false _ _)) by lra.
  cbn; repeat split; assumption.
Qed.

(** One move of the finger of at most 5px: the handler returns, and
    records the position. *)
Lemma onTouchMove_short (t : Touch) (c : Controls) :
  moveDistance (lastTouchX (pointer c)) (lastTouchY (pointer c))
    (touchX t) (touchY t) <= 5 ->
  onTouchMove (mkTouchEvent [t] [t]) c =
  Returned (mkControls (orbit c) (setLastTouch (touchX t) (touchY t) (pointer c))).
Proof.
  intros Hshort; unfold onTouchMove; cbn [touches].
  rewrite (proj2 (Rltb_false _ _)) by lra; reflexivity.
Qed.

Section PickFacts.

Variable intersectObjects : Camera -> R * R -> list Card -> list Object3D.

Local Abbreviation pick' := (pick intersectObjects).
Local Abbreviation onClick' := (onClick intersectObjects).
Local Abbreviation onTouchEnd' := (onTouchEnd intersectObjects).

(** From a mesh of card [i] the walk stops at the group of card [i]. *)
Lemma walkUp_owner (cs : list Card) (o : Object3D) (i : nat) (c : Card) :
  nth_error cs i = Some c ->
  (o = CardMesh i \/ (exists k, o = CoverMesh i k) \/ o = CardGroupOf i) ->
  userDataSong cs (walkUp cs o) = Some (song c).
Proof.
  intros Hc Ho.
  assert (Hg : userDataSong cs (walkUp cs (CardGroupOf i)) = Some (song c)).
  { rewrite walkUp_equation; simpl; rewrite Hc; simpl; rewrite Hc.
    reflexivity. }
  destruct Ho as [-> | [[k ->] | ->]]; try exact Hg;
    rewrite walkUp_equation; simpl; exact Hg.
Qed.

Lemma pick_at_most_one (cam : Camera) (m : R * R) (cs : list Card) :
  (List.length (pick' cam m cs) <= 1)%nat.
Proof.
  unfold pick; destruct (intersectObjects cam m cs) as [|obj rest];
    [simpl; lia|].
  destruct (userDataSong cs (walkUp cs obj)); simpl; lia.
Qed.

(** Clicks, taps and the pick.  The handlers raise the drag flag when
    one move event, taken alone, covers more than 5px from the position
    recorded before it.  A click with the flag up selects nothing and
    clears the flag; any other click, and a tap that ends with no finger
    left, runs the pick, which takes the nearest hit, walks up to the
    card group that owns it and hands its song to [onSelectSong], once;
    with no hit, or no owner, nothing is called. *)
Theorem drag_click_and_pick :
  (forall v press moves c,
     dragButton press = true ->
     hasDragged (pointer (mouseGesture v press moves c)) =
     existsb (Rltb 5) (stepDistances (clientX press) (clientY press) moves)) /\
  (forall cam cs p,
     onClick' cam cs p =
     if hasDragged p then (setHasDragged false p, [])
     else (p, pick' cam (mouseX p, mouseY p) cs)) /\
  (forall v cam cs e p,
     hasDragged (fst (onTouchEnd' v cam cs e p)) = false /\
     snd (onTouchEnd' v cam cs e p) =
     match touches e, hasDragged p, changedTouches e with
     | [], false, touch :: _ =>
         pick' cam (touchX touch / innerWidth v * 2 - 1,
                    - (touchY touch / innerHeight v) * 2 + 1) cs
     | _, _, _ => []
     end) /\
  (forall cam m cs,
     intersectObjects cam m cs = [] -> pick' cam m cs = []) /\
  (forall cam m cs obj rest i c,
     intersectObjects cam m cs = obj :: rest ->
     nth_error cs i = Some c ->
     (obj = CardMesh i \/ (exists k, obj = CoverMesh i k)
      \/ obj = CardGroupOf i) ->
     pick' cam m cs = [song c]) /\
  (forall cam m cs, (List.length (pick' cam m cs) <= 1)%nat).
Proof.
  split; [|split; [|split; [|split; [|split]]]].
  - intros v press moves c; apply gesture_hasDragged.
  - intros cam cs p; reflexivity.
  - intros v cam cs e p; unfold onTouchEnd.
    destruct (touches e) as [|t ts]; simpl.
    + destruct (hasDragged p); simpl; [split; reflexivity|].
      destruct (changedTouches e); split; reflexivity.
    + split; reflexivity.
  - intros cam m cs Hnone; unfold pick; rewrite Hnone; reflexivity.
  - intros cam m cs obj rest i c Hhit Hc Hobj; unfold pick; rewrite Hhit.
    rewrite (walkUp_owner cs obj i c Hc Hobj); reflexivity.
  - apply pick_at_most_one.
Qed.

End PickFacts.

(** C5, at a concrete gesture.  The button goes down at (100, 100) and
    the pointer moves right in two steps of 3px: the gesture has covered
    6px, more than 5, and ends 6px from the press.  The handler measures
    each move from the position it recorded at the move before, so the
    flag stays down and the orbit stays where it was: the click that
    follows the release picks, and selects the card under the pointer.
    The same 6px in one move do raise the flag, turn the orbit, and the
    click selects nothing.  A finger that moves the same way fares like
    the mouse: the flag stays down and lifting it selects the card. *)
Theorem slow_drag_selects :
  let v := mkViewport 1280 720 in
  let press := mkMouseEvent 0 100 100 in
  let moves := [mkMouseEvent 0 103 100; mkMouseEvent 0 106 100] in
  let c := mouseGesture v press moves initialControls in
  let cs := buildCards tenPerChar true [midnightCity] midnightCity false in
  let cam := mkCamera (mkVec3 0 0 50) (1280 / 720) in
  let released := onMouseUp (mkMouseEvent 0 106 100) (pointer c) in
  let oneMove :=
    mouseGesture v press [mkMouseEvent 0 106 100] initialControls in
  let releasedOne := onMouseUp (mkMouseEvent 0 106 100) (pointer oneMove) in
  let fingerMoves := [mkTouch 103 100; mkTouch 106 100] in
  let finger := touchGesture (mkTouch 100 100) fingerMoves initialControls in
  let lifted :=
    onTouchEnd hitFirstCard v cam cs (mkTouchEvent [] [mkTouch 106 100])
      (pointer finger) in
  pathLength press moves = 6 /\ netDistance press moves = 6 /\
  hasDragged (pointer c) = false /\
  snd (onClick hitFirstCard cam cs released) = [midnightCity] /\
  ~ (hasDragged (pointer c) = true <-> 5 < pathLength press moves) /\
  orbit c = initialOrbit /\
  hasDragged (pointer oneMove) = true /\
  orbitAngle (orbit oneMove) = 6 * 0.002 /\
  snd (onClick hitFirstCard cam cs releasedOne) = [] /\
  fold_right Rplus 0 (touchSteps 100 100 fingerMoves) = 6 /\
  hasDragged (pointer finger) = false /\
  snd lifted = [midnightCity].
Proof.
  cbv zeta.
  assert (H3a : moveDistance 100 100 103 100 = 3).
  { replace 103 with (100 + 3) by lra.
    apply moveDistance_horizontal; lra. }
  assert (H3b : moveDistance 103 100 106 100 = 3).
  { replace 106 with (103 + 3) by lra.
    apply moveDistance_horizontal; lra. }
  assert (H6 : moveDistance 100 100 106 100 = 6).
  { replace 106 with (100 + 6) by lra.
    apply moveDistance_horizontal; lra. }
  assert (Hpath : pathLength (mkMouseEvent 0 100 100)
                    [mkMouseEvent 0 103 100; mkMouseEvent 0 106 100] = 6).
  { unfold pathLength; cbn [stepDistances clientX clientY fold_right].
    rewrite H3a, H3b; lra. }
  assert (Hflag : hasDragged (pointer (mouseGesture (mkViewport 1280 720)
                    (mkMouseEvent 0 100 100)
                    [mkMouseEvent 0 103 100; mkMouseEvent 0 106 100]
                    initialControls)) = false).
  { rewrite gesture_hasDragged by reflexivity.
    cbn [stepDistances clientX clientY existsb].
    rewrite H3a, H3b; decide_R; reflexivity. }
  assert (Hone : hasDragged (pointer (mouseGesture (mkViewport 1280 720)
                   (mkMouseEvent 0 100 100) [mkMouseEvent 0 106 100]
                   initialControls)) = true).
  { rewrite gesture_hasDragged by reflexivity.
    cbn [stepDistances clientX clientY existsb].
    rewrite H6; decide_R; reflexivity. }
  assert (Hcard : userDataSong
            (buildCards tenPerChar true [midnightCity] midnightCity false)
            (walkUp
               (buildCards tenPerChar true [midnightCity] midnightCity false)
               (CardMesh 0)) = Some midnightCity).
  { rewrite (walkUp_owner _ (CardMesh 0) 0
               (buildCard tenPerChar true 1 midnightCity false midnightCity 0));
      [reflexivity | reflexivity | left; reflexivity]. }
  assert (Hfinger :
    touchGesture (mkTouch 100 100) [mkTouch 103 100; mkTouch 106 100]
      initialControls =
    mkControls initialOrbit (setLastTouch 106 100 initialPointer)).
  { unfold touchGesture, oneFinger; cbn [fold_left].
    assert (Hfirst :
      onTouchMove (mkTouchEvent [mkTouch 103 100] [mkTouch 103 100])
        (mkControls (orbit initialControls)
           (onTouchStart (mkTouchEvent [mkTouch 100 100] [mkTouch 100 100])
              (pointer initialControls))) =
      Returned (mkControls initialOrbit (setLastTouch 103 100 initialPointer))).
    { rewrite onTouchMove_short; [reflexivity|].
      unfold onTouchStart.
      cbn [touches pointer lastTouchX lastTouchY setHasDragged setLastTouch
           touchX touchY].
      rewrite H3a; lra. }
    rewrite Hfirst; cbn [stateOf].
    rewrite onTouchMove_short; [reflexivity|].
    cbn [pointer lastTouchX lastTouchY setLastTouch touchX touchY].
    rewrite H3b; lra. }
  split; [exact Hpath|]; split; [|split; [exact Hflag|split; [|split]]].
  - unfold netDistance; cbn [last clientX clientY]; exact H6.
  - unfold onClick, onMouseUp; cbn [dragButton button Z.eqb orb].
    cbn [hasDragged setIsMouseDown]; rewrite Hflag; cbn [snd].
    unfold pick, hitFirstCard; rewrite Hcard; reflexivity.
  - rewrite Hflag, Hpath; intros [_ Hback].
    assert (H56 : 5 < 6) by lra.
    specialize (Hback H56); discriminate Hback.
  - split; [|split; [exact Hone|split; [|split; [|split; [|split]]]]].
    + unfold mouseGesture; cbn [fold_left].
      set (c0 := mkControls (orbit initialControls)
                   (onMouseDown (mkMouseEvent 0 100 100)
                      (pointer initialControls))).
      destruct (onMouseMove_short (mkViewport 1280 720)
                  (mkMouseEvent 0 103 100) c0) as [Ho [_ [Hd [Hx Hy]]]];
        [reflexivity
        | unfold c0, onMouseDown;
          cbn [dragButton button Z.eqb orb pointer lastMouseX lastMouseY
               setLastMouse clientX clientY];
          rewrite H3a; lra |].
      destruct (onMouseMove_short (mkViewport 1280 720)
                  (mkMouseEvent 0 106 100)
                  (onMouseMove (mkViewport 1280 720)
                     (mkMouseEvent 0 103 100) c0)) as [Ho' _];
        [exact Hd | rewrite Hx, Hy; cbn [clientX clientY]; rewrite H3b; lra |].
      rewrite Ho', Ho; reflexivity.
    + unfold mouseGesture, onMouseMove, onMouseDown; cbn [fold_left].
      cbn [dragButton button Z.eqb orb pointer orbit initialControls
           isMouseDown setMouse setLastMouse setHasDragged setIsMouseDown
           lastMouseX lastMouseY clientX clientY].
      rewrite H6; decide_R.
      cbn [orbit orbitAngle initialOrbit]; unfold dragSensitivity; lra.
    + unfold onClick, onMouseUp; cbn [dragButton button Z.eqb orb].
      cbn [hasDragged setIsMouseDown]; rewrite Hone; reflexivity.
    + cbn [touchSteps touchX touchY fold_right]; rewrite H3a, H3b; lra.
    + rewrite Hfinger; reflexivity.
    + rewrite Hfinger; unfold onTouchEnd.
      cbn [touches changedTouches List.length Nat.eqb andb pointer
           hasDragged setLastTouch initialPointer negb snd].
      unfold pick, hitFirstCard; rewrite Hcard; reflexivity.
Qed.

(** ** Orbit *)

(** The mouse drag: a move of more than 5px with the button down turns
    the orbit by [deltaX * 0.002] and moves the pitch by
    [deltaY * 0.002], kept within [-1.2, 1.2]. *)
Lemma onMouseMove_orbit (v : Viewport) (e : MouseEvent) (c : Controls) :
  isMouseDown (pointer c) = true ->
  5 < moveDistance (lastMouseX (pointer c)) (lastMouseY (pointer c))
        (clientX e) (clientY e) ->
  orbitAngle (orbit (onMouseMove v e c)) =
    orbitAngle (orbit c) + (clientX e - lastMouseX (pointer c)) * 0.002 /\
  orbitPitch (orbit (onMouseMove v e c)) =
    clamp (-1.2) 1.2
      (orbitPitch (orbit c) + (clientY e - lastMouseY (pointer c)) * 0.002).
Proof.
  intros Hdown Hfar; unfold onMouseMove; cbn [isMouseDown setMouse].
  rewrite Hdown; cbn [lastMouseX lastMouseY setMouse].
  rewrite (proj2 (Rltb_true _ _) Hfar); split; reflexivity.
Qed.

Lemma onMouseMove_pitch (v : Viewport) (e : MouseEvent) (c : Controls) :
  pitchInRange c -> pitchInRange (onMouseMove v e c).
Proof.
  intros Hc; unfold pitchInRange, onMouseMove; cbn [isMouseDown setMouse].
  destruct (isMouseDown (pointer c)); [|exact Hc].
  destruct (Rltb 5 _); [|exact Hc].
  cbn [orbit orbitPitch]; apply (clamp_bounds (-1.2) 1.2); lra.
Qed.

(** So the pitch stays within [-1.2, 1.2] through any run of mouse
    moves. *)
Lemma mouse_moves_pitch (v : Viewport) (moves : list MouseEvent) :
  forall c,
    pitchInRange c ->
    pitchInRange (fold_left (fun c e => onMouseMove v e c) moves c).
Proof.
  induction moves as [|e moves IH]; intros c Hc; simpl; [exact Hc|].
  apply IH, onMouseMove_pitch, Hc.
Qed.

(** The touch handler never gets to the orbit: however the fingers
    move, angle and pitch stay as they were. *)
Lemma onTouchMove_orbit (e : TouchEvent) (c : Controls) :
  orbitAngle (orbit (stateOf (onTouchMove e c))) = orbitAngle (orbit c) /\
  orbitPitch (orbit (stateOf (onTouchMove e c))) = orbitPitch (orbit c).
Proof.
  unfold onTouchMove; destruct (touches e) as [|t0 [|t1 [|t2 ts]]];
    try (split; reflexivity).
  destruct (Rltb 5 _); split; reflexivity.
Qed.

(** C6, at a concrete drag.  One finger lands at (100, 100) and moves to
    (130, 140), 50px away.  The handler sets the drag flag and then reads
    [rotationTarget] off [sceneRef.current], which has no such field: it
    raises, and angle and pitch stay at 0 and 0.3.  The same drag with
    the mouse turns the orbit to 0.06 and the pitch to 0.38. *)
Theorem touch_drag_raises :
  let start := mkTouchEvent [mkTouch 100 100] [mkTouch 100 100] in
  let move := mkTouchEvent [mkTouch 130 140] [mkTouch 130 140] in
  let c1 := mkControls initialOrbit (onTouchStart start initialPointer) in
  let byMouse :=
    mouseGesture (mkViewport 1280 720) (mkMouseEvent 0 100 100)
      [mkMouseEvent 0 130 140] initialControls in
  onTouchMove move c1 =
    Threw (TypeError "rotationTarget is undefined")
          (mkControls initialOrbit (setHasDragged true (pointer c1))) /\
  orbitAngle (orbit (stateOf (onTouchMove move c1))) = 0 /\
  orbitPitch (orbit (stateOf (onTouchMove move c1))) = 0.3 /\
  orbitAngle (orbit byMouse) = 0 + 30 * 0.002 /\
  orbitPitch (orbit byMouse) = 0.3 + 40 * 0.002.
Proof.
  cbv zeta.
  assert (H50 : moveDistance 100 100 130 140 = 50).
  { replace 130 with (100 + 3 * 10) by lra.
    replace 140 with (100 + 4 * 10) by lra.
    rewrite moveDistance_3_4; lra. }
  assert (Hthrow :
    onTouchMove (mkTouchEvent [mkTouch 130 140] [mkTouch 130 140])
      (mkControls initialOrbit
         (onTouchStart (mkTouchEvent [mkTouch 100 100] [mkTouch 100 100])
            initialPointer)) =
    Threw (TypeError "rotationTarget is undefined")
      (mkControls initialOrbit
         (setHasDragged true
            (onTouchStart (mkTouchEvent [mkTouch 100 100] [mkTouch 100 100])
               initialPointer)))).
  { unfold onTouchMove, onTouchStart.
    cbn [touches pointer orbit lastTouchX lastTouchY setHasDragged
         setLastTouch touchX touchY initialPointer].
    rewrite H50; decide_R; reflexivity. }
  split; [exact Hthrow|]; rewrite Hthrow.
  split; [reflexivity|]; split; [reflexivity|].
  unfold mouseGesture; cbn [fold_left].
  assert (Hdown : isMouseDown (pointer (mkControls (orbit initialControls)
             (onMouseDown (mkMouseEvent 0 100 100)
                (pointer initialControls)))) = true) by reflexivity.
  destruct (onMouseMove_orbit (mkViewport 1280 720) (mkMouseEvent 0 130 140)
              _ Hdown) as [Ha Hp].
  { cbn; rewrite H50; lra. }
  rewrite Ha, Hp; cbn; split; [lra|].
  rewrite clamp_id; lra.
Qed.

(** ** The cover-image loader *)

Lemma load_fetches (url : string) (results : list LoadResult) :
  forall retries, (fetches (loadAlbumArt url retries results) <= S retries)%nat.
Proof.
  unfold fetches.
  induction results as [|r results IH]; intros retries; simpl; [lia|].
  destruct r as [w h| |]; try destruct (Reqb w 0 || Reqb h 0);
    destruct retries as [|n]; simpl; try lia;
    rewrite Nat.sub_0_r; specialize (IH n); lia.
Qed.

Lemma load_delays_length (url : string) (results : list LoadResult) :
  forall retries,
    (List.length (delays (loadAlbumArt url retries results)) <= retries)%nat.
Proof.
  induction results as [|r results IH]; intros retries; simpl; [lia|].
  destruct r as [w h| |]; try destruct (Reqb w 0 || Reqb h 0);
    destruct retries as [|n]; simpl; try lia;
    rewrite Nat.sub_0_r; specialize (IH n); lia.
Qed.

Lemma load_delays_failures (url : string) (results : list LoadResult) :
  Forall (fun r => isFailure r = true) results ->
  forall retries,
    delays (loadAlbumArt url retries results) =
    map failureDelay (firstn retries results).
Proof.
  induction 1 as [|r results Hr _ IH]; intros retries; simpl.
  - rewrite firstn_nil; reflexivity.
  - destruct r as [w h| |]; simpl in Hr; try rewrite Hr;
      destruct retries as [|n]; simpl; try reflexivity;
      rewrite Nat.sub_0_r, IH; reflexivity.
Qed.

Lemma load_exhausted (url : string) (results : list LoadResult) :
  Forall (fun r => isFailure r = true) results ->
  forall retries,
    (retries < List.length results)%nat ->
    fetches (loadAlbumArt url retries results) = S retries /\
    coversAdded (loadAlbumArt url retries results) = [].
Proof.
  unfold fetches.
  induction 1 as [|r results Hr _ IH]; intros retries Hlen; simpl in *;
    [lia|].
  destruct r as [w h| |]; simpl in Hr; try rewrite Hr;
    destruct retries as [|n]; simpl; try (split; reflexivity);
    rewrite Nat.sub_0_r; destruct (IH n ltac:(lia)) as [Hf Hc];
    rewrite Hf, Hc; split; reflexivity.
Qed.

Lemma applyLoad_card (t : list LoadEvent) (c : Card) :
  song (applyLoad t c) = song c /\
  position (applyLoad t c) = position c /\
  texture (applyLoad t c) = texture c.
Proof.
  unfold applyLoad; revert c.
  induction (coversAdded t) as [|a l IH]; intros c; simpl; [auto|].
  destruct (IH (addCover a c)) as [Hs [Hp Ht]].
  rewrite Hs, Hp, Ht; auto.
Qed.

(** C9, as the code has it.  A cover load is fetched at most four times:
    once, and at most three retries.  After a load that fails, the retry
    waits 1000ms when the fetch raised an error and 500ms when the image
    came back without dimensions, whichever retry it is.  When the first
    four loads all fail, nothing more is tried and no cover is added: the
    card stays as it was built.  Whatever the loader does, the card
    keeps its song, position and texture; the loader itself only logs. *)
Theorem cover_load_retries (s : Song) (results : list LoadResult) :
  let t := startLoad s results in
  (fetches t <= 4)%nat /\ (List.length (delays t) <= 3)%nat /\
  Forall (fun ms => ms = 500 \/ ms = 1000) (delays t) /\
  (Forall (fun r => isFailure r = true) results ->
     delays t = map failureDelay (firstn 3 results)) /\
  (Forall (fun r => isFailure r = true) results ->
   (3 < List.length results)%nat ->
     fetches t = 4%nat /\ coversAdded t = [] /\
     forall c, applyLoad t c = c) /\
  (forall c,
     song (applyLoad t c) = song c /\
     position (applyLoad t c) = position c /\
     texture (applyLoad t c) = texture c).
Proof.
  cbv zeta; unfold startLoad.
  split; [apply load_fetches|]; split; [apply load_delays_length|].
  split; [|split; [|split]].
  - generalize 3%nat; induction results as [|r rs IH]; intros n; simpl;
      [constructor|].
    destruct r as [w h| |]; try destruct (Reqb w 0 || Reqb h 0);
      destruct n as [|n]; simpl; repeat constructor; auto;
      rewrite Nat.sub_0_r; apply IH.
  - intros Hall; apply load_delays_failures, Hall.
  - intros Hall Hlen.
    destruct (load_exhausted (coverUrl s) results Hall 3 Hlen) as [Hf Hc].
    split; [exact Hf|]; split; [exact Hc|].
    intros c; unfold applyLoad; rewrite Hc; reflexivity.
  - intros c; apply applyLoad_card.
Qed.

(** C9, as stated, fails on the waits: they follow the kind of failure,
    not the count of retries.  When every fetch raises an error the
    loader waits 1000ms each time; when every image comes back without
    dimensions it waits 500ms each time.  Neither is "500ms, then
    1000ms". *)
Lemma retry_waits_follow_failure_kind :
  delays (startLoad midnightCity [LoadError; LoadError; LoadError; LoadError])
    = [1000; 1000; 1000] /\
  delays (startLoad midnightCity [NoImage; Decoded 0 0; NoImage; NoImage])
    = [500; 500; 500] /\
  ~ halfThenFullSecond
      (delays (startLoad midnightCity
                 [LoadError; LoadError; LoadError; LoadError])) /\
  ~ halfThenFullSecond
      (delays (startLoad midnightCity
                 [NoImage; Decoded 0 0; NoImage; NoImage])).
Proof.
  assert (He : delays (startLoad midnightCity
                 [LoadError; LoadError; LoadError; LoadError])
               = [1000; 1000; 1000]) by reflexivity.
  assert (Hz : delays (startLoad midnightCity
                 [NoImage; Decoded 0 0; NoImage; NoImage])
               = [500; 500; 500]).
  { unfold startLoad; rewrite load_delays_failures; [reflexivity|].
    repeat constructor; simpl; decide_R; reflexivity. }
  split; [exact He|]; split; [exact Hz|]; rewrite He, Hz; simpl.
  split; intros [H1 H2]; lra.
Qed.

(** * Further properties of the component *)

(** ** The cover overlay *)

Lemma floor_two_thirds_of_height : floor (760 * (2 / 3)) = 506.
Proof.
  unfold floor; f_equal; symmetry; apply Int_part_spec; lra.
Qed.

(** The display area in card units, less the 3% margin. *)
Lemma cover_bounds_positive :
  0 < (512 - 18 * 2) / (512 / 4) * (1 - 0.03) /\
  0 < 506 / (760 / 5.8) * (1 - 0.03).
Proof. split; lra. Qed.

(** The "contain" fit.  For an image with both dimensions positive the
    cover mesh keeps the aspect of the image, fits into the display area
    less its 3% margin (3.6071875 by about 3.7458 card units), and
    touches that box in width or in height; it is centred on the display
    area, 0.02 in front of the card. *)
Theorem coverMesh_contains (imgW imgH : R)
    (Hw : 0 < imgW) (Hh : 0 < imgH) :
  let availableWidth := (512 - 18 * 2) / (512 / 4) * (1 - 0.03) in
  let availableHeight := 506 / (760 / 5.8) * (1 - 0.03) in
  let a := coverMesh imgW imgH in
  0 < artWidth a <= availableWidth /\
  0 < artHeight a <= availableHeight /\
  artWidth a * imgH = artHeight a * imgW /\
  (artWidth a = availableWidth \/ artHeight a = availableHeight) /\
  artPosition a =
    mkVec3 0 (2.9 - 18 / (760 / 5.8) - 506 / (760 / 5.8) / 2) 0.02.
Proof.
  cbv zeta; unfold coverMesh; rewrite floor_two_thirds_of_height.
  set (W := (512 - 18 * 2) / (512 / 4) * (1 - 0.03)).
  set (H := 506 / (760 / 5.8) * (1 - 0.03)).
  assert (HW : 0 < W) by (unfold W; lra).
  assert (HH : 0 < H) by (unfold H; lra).
  assert (Ha : 0 < imgW / imgH) by (apply Rdiv_lt_0_compat; assumption).
  assert (Hmul : imgW / imgH * imgH = imgW) by (field; lra).
  assert (HWH : W / H * H = W) by (field; lra).
  destruct (Rltb (W / H) (imgW / imgH)) eqn:Hcmp.
  - apply Rltb_true in Hcmp.
    assert (Hfit : W / (imgW / imgH) < H).
    { apply (Rmult_lt_reg_r (imgW / imgH)); [exact Ha|].
      replace (W / (imgW / imgH) * (imgW / imgH)) with W by (field; lra).
      rewrite <- HWH at 1; rewrite (Rmult_comm H).
      apply Rmult_lt_compat_r; assumption. }
    rewrite (proj2 (Rltb_false _ _) (Rlt_le _ _ Hfit)).
    cbn [artWidth artHeight artPosition].
    rewrite Rmin_left by lra; rewrite Rmin_left by lra.
    assert (Hpos : 0 < W / (imgW / imgH)) by (apply Rdiv_lt_0_compat; lra).
    split; [lra|]; split; [lra|]; split; [field; lra|].
    split; [left; reflexivity | reflexivity].
  - apply Rltb_false in Hcmp.
    assert (Hfit : H * (imgW / imgH) <= W).
    { rewrite <- HWH, (Rmult_comm (W / H)).
      apply Rmult_le_compat_l; lra. }
    rewrite (proj2 (Rltb_false _ _) Hfit).
    cbn [artWidth artHeight artPosition].
    rewrite Rmin_left by lra; rewrite Rmin_left by lra.
    assert (Hpos : 0 < H * (imgW / imgH)) by (apply Rmult_lt_0_compat; lra).
    split; [lra|]; split; [lra|]; split; [field; lra|].
    split; [right; reflexivity | reflexivity].
Qed.

Lemma coverMesh_contains_witness :
  let a := coverMesh 480 360 in
  0 < artWidth a <= (512 - 18 * 2) / (512 / 4) * (1 - 0.03) /\
  0 < artHeight a <= 506 / (760 / 5.8) * (1 - 0.03) /\
  artWidth a * 360 = artHeight a * 480 /\
  (artWidth a = (512 - 18 * 2) / (512 / 4) * (1 - 0.03) \/
   artHeight a = 506 / (760 / 5.8) * (1 - 0.03)) /\
  artPosition a =
    mkVec3 0 (2.9 - 18 / (760 / 5.8) - 506 / (760 / 5.8) / 2) 0.02.
Proof.
  apply (coverMesh_contains 480 360); lra.
Defined.

(** ** Time labels *)

Lemma Int_part_IZR (z : Z) : Int_part (IZR z) = z.
Proof. symmetry; apply Int_part_spec; lra. Qed.

Lemma two_digit_seconds (r : Z) :
  (0 <= r < 60)%Z ->
  String.length (padStart2 (NilZero.string_of_int (Z.to_int r))) = 2%nat.
Proof.
  intros Hr; rewrite <- (Z2Nat.id r) by lia.
  assert (Hn : (Z.to_nat r < 60)%nat) by lia.
  revert Hn; generalize (Z.to_nat r) as n; intros n Hn.
  do 60 (destruct n as [|n]; [reflexivity|]); lia.
Qed.

(** [formatTimeForCanvas] on a time that is not negative prints whole
    minutes, a colon and the seconds left over, which lie between 0 and
    59 and take two characters; minutes and seconds together are the
    time rounded down to whole seconds. *)
Theorem formatTimeForCanvas_minutes_seconds (seconds : R)
    (Hs : 0 <= seconds) :
  exists m r : Z,
    (0 <= m)%Z /\ (0 <= r < 60)%Z /\
    (60 * m + r)%Z = Int_part seconds /\
    String.length (padStart2 (NilZero.string_of_int (Z.to_int r))) = 2%nat /\
    formatTimeForCanvas seconds =
      String.append (NilZero.string_of_int (Z.to_int m))
        (String.append ":" (padStart2 (NilZero.string_of_int (Z.to_int r)))).
Proof.
  set (m := Int_part (seconds / 60)).
  set (r := Int_part (jsRem seconds 60)).
  destruct (base_Int_part (seconds / 60)) as [Hm1 Hm2]; fold m in Hm1, Hm2.
  assert (Hq : 0 <= seconds / 60) by lra.
  assert (Hrem : jsRem seconds 60 = seconds - 60 * IZR m).
  { unfold jsRem, trunc; destruct (Rle_dec 0 (seconds / 60)); [|lra].
    reflexivity. }
  destruct (base_Int_part (jsRem seconds 60)) as [Hr1 Hr2]; fold r in Hr1, Hr2.
  rewrite Hrem in Hr1, Hr2.
  assert (Hm0 : (0 <= m)%Z).
  { assert (H : (-1 < m)%Z) by (apply lt_IZR; lra); lia. }
  assert (Hr0 : (0 <= r < 60)%Z).
  { assert (H : (-1 < r)%Z) by (apply lt_IZR; lra).
    assert (H' : (r < 60)%Z) by (apply lt_IZR; lra); lia. }
  exists m, r.
  split; [exact Hm0|]; split; [exact Hr0|]; split; [|split].
  - apply Int_part_spec; rewrite plus_IZR, mult_IZR; lra.
  - apply two_digit_seconds, Hr0.
  - unfold formatTimeForCanvas, numToString, floor.
    rewrite !Int_part_IZR; reflexivity.
Qed.

Lemma formatTimeForCanvas_minutes_seconds_witness :
  exists m r : Z,
    (0 <= m)%Z /\ (0 <= r < 60)%Z /\
    (60 * m + r)%Z = Int_part 252 /\
    String.length (padStart2 (NilZero.string_of_int (Z.to_int r))) = 2%nat /\
    formatTimeForCanvas 252 =
      String.append (NilZero.string_of_int (Z.to_int m))
        (String.append ":" (padStart2 (NilZero.string_of_int (Z.to_int r)))).
Proof.
  apply (formatTimeForCanvas_minutes_seconds 252); lra.
Defined.

(** ** More on zoom *)

Lemma distanceMultiplier_bounds (z : R) : 0.8 <= distanceMultiplier z <= 2.5.
Proof. rewrite distanceMultiplier_clamp; apply clamp_bounds; lra. Qed.

(** A wheel tick moves the zoom the way the wheel turns, and by no more
    than 0.3 per unit of [deltaY]: from a zoom within [10, 300], a tick
    with [deltaY >= 0] never lowers it and a tick with [deltaY <= 0]
    never raises it. *)
Theorem wheel_tick_direction_and_size (deltaY : R) (o : Orbit)
    (Hz : 10 <= targetZoom o <= 300) :
  let z := targetZoom o in
  let z' := targetZoom (onWheel deltaY o) in
  (0 <= deltaY -> z <= z' <= z + 0.3 * deltaY) /\
  (deltaY <= 0 -> z + 0.3 * deltaY <= z' <= z) /\
  (10 <= z + deltaY * 0.12 * distanceMultiplier z <= 300 ->
     z' = z + deltaY * 0.12 * distanceMultiplier z /\
     0.096 * Rabs deltaY <= Rabs (z' - z)).
Proof.
  cbv zeta; rewrite onWheel_targetZoom, <- distanceMultiplier_clamp.
  pose proof (distanceMultiplier_bounds (targetZoom o)) as Hm.
  set (m := distanceMultiplier (targetZoom o)) in *.
  split; [|split].
  - intros Hd; unfold clamp, Rmax, Rmin.
    destruct (Rle_dec 300 _); destruct (Rle_dec 10 _); nra.
  - intros Hd; unfold clamp, Rmax, Rmin.
    destruct (Rle_dec 300 _); destruct (Rle_dec 10 _); nra.
  - intros Hin; rewrite clamp_id by exact Hin; split; [reflexivity|].
    replace (targetZoom o + deltaY * 0.12 * m - targetZoom o)
      with (deltaY * (0.12 * m)) by ring.
    rewrite Rabs_mult, (Rabs_pos_eq (0.12 * m)) by lra.
    pose proof (Rabs_pos deltaY); nra.
Qed.

Lemma wheel_tick_direction_and_size_witness :
  let z := targetZoom initialOrbit in
  let z' := targetZoom (onWheel 100 initialOrbit) in
  (0 <= 100 -> z <= z' <= z + 0.3 * 100) /\
  (100 <= 0 -> z + 0.3 * 100 <= z' <= z) /\
  (10 <= z + 100 * 0.12 * distanceMultiplier z <= 300 ->
     z' = z + 100 * 0.12 * distanceMultiplier z /\
     0.096 * Rabs 100 <= Rabs (z' - z)).
Proof.
  apply (wheel_tick_direction_and_size 100 initialOrbit); simpl; lra.
Defined.

(** A two-finger move always leaves the zoom within [15, 250], the
    range of the touch path, whatever it was: with the fingers held
    still the zoom is pulled into that range and otherwise unchanged, so
    a camera the wheel took beyond 250 snaps back to 250.  Within the
    range, spreading the fingers never raises the zoom and closing them
    never lowers it. *)
Theorem pinch_lands_in_touch_range
    (t0 t1 : Touch) (changed : list Touch) (c : Controls) :
  let z := targetZoom (orbit c) in
  let before := touchStartDistance (pointer c) in
  let now := touchDistance t0 t1 in
  let z' :=
    targetZoom
      (orbit (stateOf (onTouchMove (mkTouchEvent [t0; t1] changed) c))) in
  15 <= z' <= 250 /\
  (now = before -> z' = clamp 15 250 z) /\
  (now = before -> 250 <= z -> z' = 250) /\
  (15 <= z <= 250 -> before <= now -> z' <= z) /\
  (15 <= z <= 250 -> now <= before -> z <= z').
Proof.
  cbv zeta; cbn [onTouchMove touches stateOf orbit targetZoom setTargetZoom].
  set (z := targetZoom (orbit c)).
  set (d := touchStartDistance (pointer c) - touchDistance t0 t1).
  change (Rmax 15 (Rmin 250 (z + d * 0.5))) with (clamp 15 250 (z + d * 0.5)).
  split; [apply clamp_bounds; lra|].
  split; [|split; [|split]].
  - intros Heq; f_equal; unfold d; rewrite Heq; lra.
  - intros Heq Hz; unfold d; rewrite Heq.
    unfold clamp, Rmax, Rmin.
    destruct (Rle_dec 250 _); destruct (Rle_dec 15 _); lra.
  - intros Hz Hd; unfold clamp, Rmax, Rmin.
    destruct (Rle_dec 250 _); destruct (Rle_dec 15 _); unfold d in *; lra.
  - intros Hz Hd; unfold clamp, Rmax, Rmin.
    destruct (Rle_dec 250 _); destruct (Rle_dec 15 _); unfold d in *; lra.
Qed.

(** ** More on the mouse *)

Lemma onMouseMove_mouse (v : Viewport) (e : MouseEvent) (c : Controls) :
  mouseX (pointer (onMouseMove v e c)) = clientX e / innerWidth v * 2 - 1 /\
  mouseY (pointer (onMouseMove v e c)) =
    - (clientY e / innerHeight v) * 2 + 1.
Proof.
  unfold onMouseMove; cbn [isMouseDown setMouse].
  destruct (isMouseDown (pointer c)); [|split; reflexivity].
  destruct (Rltb 5 _); split; reflexivity.
Qed.

Lemma div_in_unit (x w : R) : 0 < w -> 0 <= x <= w -> 0 <= x / w <= 1.
Proof.
  intros Hw Hx.
  pose proof (Rinv_0_lt_compat w Hw) as Hi.
  assert (Hone : w / w = 1) by (field; lra).
  unfold Rdiv in *; split; [apply Rmult_le_pos; lra|].
  rewrite <- Hone; apply Rmult_le_compat_r; lra.
Qed.

(** Every mouse move records the pointer in normalised device
    coordinates: for a pointer inside the window both lie in [-1, 1],
    with the top left corner at (-1, 1) and the bottom right corner at
    (1, -1). *)
Theorem mouse_tracks_normalised_pointer
    (v : Viewport) (e : MouseEvent) (c : Controls)
    (Hw : 0 < innerWidth v) (Hh : 0 < innerHeight v)
    (Hx : 0 <= clientX e <= innerWidth v)
    (Hy : 0 <= clientY e <= innerHeight v) :
  let p := pointer (onMouseMove v e c) in
  -1 <= mouseX p <= 1 /\ -1 <= mouseY p <= 1 /\
  (clientX e = 0 -> mouseX p = -1) /\
  (clientX e = innerWidth v -> mouseX p = 1) /\
  (clientY e = 0 -> mouseY p = 1) /\
  (clientY e = innerHeight v -> mouseY p = -1).
Proof.
  cbv zeta; destruct (onMouseMove_mouse v e c) as [-> ->].
  pose proof (div_in_unit _ _ Hw Hx) as Hqx.
  pose proof (div_in_unit _ _ Hh Hy) as Hqy.
  split; [lra|]; split; [lra|].
  split; [|split; [|split]]; intros ->.
  - unfold Rdiv; rewrite Rmult_0_l; lra.
  - unfold Rdiv; rewrite Rinv_r by lra; lra.
  - unfold Rdiv; rewrite Rmult_0_l; lra.
  - unfold Rdiv; rewrite Rinv_r by lra; lra.
Qed.

Lemma mouse_tracks_normalised_pointer_witness :
  let p := pointer (onMouseMove (mkViewport 1280 720)
                      (mkMouseEvent 0 640 360) initialControls) in
  -1 <= mouseX p <= 1 /\ -1 <= mouseY p <= 1.
Proof.
  destruct (mouse_tracks_normalised_pointer (mkViewport 1280 720)
              (mkMouseEvent 0 640 360) initialControls
              ltac:(simpl; lra) ltac:(simpl; lra)
              ltac:(simpl; lra) ltac:(simpl; lra)) as [Hx [Hy _]].
  split; [exact Hx | exact Hy].
Defined.

Lemma onMouseMove_up (v : Viewport) (e : MouseEvent) (c : Controls) :
  isMouseDown (pointer c) = false ->
  onMouseMove v e c =
  mkControls (orbit c)
    (setMouse (clientX e / innerWidth v * 2 - 1)
              (- (clientY e / innerHeight v) * 2 + 1) (pointer c)).
Proof.
  intros Hup; unfold onMouseMove; cbn [isMouseDown setMouse].
  rewrite Hup; reflexivity.
Qed.

(** Moving the mouse with no button down never turns the camera: through
    any run of moves the orbit, the drag flag and the recorded drag
    position stay as they were, and the button stays up. *)
Theorem hover_leaves_orbit
    (v : Viewport) (moves : list MouseEvent) (c : Controls)
    (Hup : isMouseDown (pointer c) = false) :
  let c' := fold_left (fun c e => onMouseMove v e c) moves c in
  orbit c' = orbit c /\
  isMouseDown (pointer c') = false /\
  hasDragged (pointer c') = hasDragged (pointer c) /\
  lastMouseX (pointer c') = lastMouseX (pointer c) /\
  lastMouseY (pointer c') = lastMouseY (pointer c).
Proof.
  cbv zeta; revert c Hup.
  induction moves as [|e moves IH]; intros c Hup; simpl; [auto|].
  rewrite (onMouseMove_up v e c Hup).
  destruct (IH (mkControls (orbit c)
                  (setMouse (clientX e / innerWidth v * 2 - 1)
                            (- (clientY e / innerHeight v) * 2 + 1)
                            (pointer c))) Hup) as [Ho [Hd [Hg [Hx Hy]]]].
  rewrite Ho, Hd, Hg, Hx, Hy; auto.
Qed.

Lemma hover_leaves_orbit_witness :
  let released :=
    mkControls initialOrbit
      (onMouseUp (mkMouseEvent 0 130 140)
         (onMouseDown (mkMouseEvent 0 100 100) initialPointer)) in
  let c' :=
    fold_left (fun c e => onMouseMove (mkViewport 1280 720) e c)
      [mkMouseEvent 0 300 300; mkMouseEvent 0 900 20] released in
  orbit c' = orbit released /\ isMouseDown (pointer c') = false.
Proof.
  destruct (hover_leaves_orbit (mkViewport 1280 720)
              [mkMouseEvent 0 300 300; mkMouseEvent 0 900 20]
              (mkControls initialOrbit
                 (onMouseUp (mkMouseEvent 0 130 140)
                    (onMouseDown (mkMouseEvent 0 100 100) initialPointer)))
              eq_refl) as [Ho [Hd _]].
  split; [exact Ho | exact Hd].
Defined.

(** ** The camera *)

Lemma orbitTarget_normSq (o : Orbit) :
  normSq (orbitTarget o) = targetZoom o * targetZoom o.
Proof.
  unfold normSq, orbitTarget; cbn [vx vy vz].
  pose proof (sin2_cos2 (orbitAngle o)) as Ha.
  pose proof (sin2_cos2 (orbitPitch o)) as Hp.
  unfold Rsqr in Ha, Hp.
  set (sa := sin (orbitAngle o)) in *; set (ca := cos (orbitAngle o)) in *.
  set (sp := sin (orbitPitch o)) in *; set (cp := cos (orbitPitch o)) in *.
  replace (targetZoom o * sa * cp * (targetZoom o * sa * cp) +
           targetZoom o * sp * (targetZoom o * sp) +
           targetZoom o * ca * cp * (targetZoom o * ca * cp))
    with (targetZoom o * targetZoom o *
          ((sa * sa + ca * ca) * (cp * cp) + sp * sp)) by ring.
  rewrite Ha, Rmult_1_l, (Rplus_comm (cp * cp)), Hp; ring.
Qed.

Lemma animateCamera_gap (o : Orbit) (cam : Camera) :
  let t := orbitTarget o in
  let p := cameraPosition cam in
  let p' := cameraPosition (animateCamera o cam) in
  vx p' - vx t = 0.9 * (vx p - vx t) /\
  vy p' - vy t = 0.9 * (vy p - vy t) /\
  vz p' - vz t = 0.9 * (vz p - vz t).
Proof.
  cbv zeta; unfold animateCamera, orbitTarget, lerp.
  cbn [cameraPosition vx vy vz].
  split; [|split]; lra.
Qed.

Lemma frames_controls (n : nat) (w : World) :
  controls (frames n w) = controls w.
Proof.
  unfold frames; induction n as [|n IH]; simpl; [reflexivity|exact IH].
Qed.

(** The render loop steers the camera to a point at distance
    [targetZoom] from the origin, and every frame closes a tenth of the
    gap along each axis: after [n] frames with the controls untouched the
    gap is [0.9 ^ n] times what it was. *)
Theorem camera_closes_on_target (n : nat) (w : World) :
  let t := orbitTarget (orbit (controls w)) in
  let p := cameraPosition (camera w) in
  let p' := cameraPosition (camera (frames n w)) in
  normSq t = targetZoom (orbit (controls w)) * targetZoom (orbit (controls w)) /\
  vx p' - vx t = 0.9 ^ n * (vx p - vx t) /\
  vy p' - vy t = 0.9 ^ n * (vy p - vy t) /\
  vz p' - vz t = 0.9 ^ n * (vz p - vz t) /\
  aspect (camera (frames n w)) = aspect (camera w).
Proof.
  cbv zeta; split; [apply orbitTarget_normSq|].
  induction n as [|n IH].
  - change (frames 0 w) with w; cbn [pow]; rewrite !Rmult_1_l.
    split; [reflexivity|]; split; [reflexivity|]; split; reflexivity.
  - destruct IH as [Hx [Hy [Hz Ha]]].
    change (frames (S n) w) with (animate (frames n w)).
    cbn [animate camera].
    rewrite frames_controls.
    destruct (animateCamera_gap (orbit (controls w)) (camera (frames n w)))
      as [Gx [Gy Gz]].
    rewrite Gx, Gy, Gz, Hx, Hy, Hz; cbn [pow].
    rewrite !Rmult_assoc.
    split; [reflexivity|]; split; [reflexivity|]; split; [reflexivity|].
    exact Ha.
Qed.

Lemma animateCamera_normSq (o : Orbit) (cam : Camera) :
  normSq (cameraPosition (animateCamera o cam)) <=
  0.9 * normSq (cameraPosition cam) + 0.1 * normSq (orbitTarget o).
Proof.
  unfold normSq, animateCamera, lerp; cbn [cameraPosition vx vy vz].
  fold (vx (orbitTarget o)) (vy (orbitTarget o)) (vz (orbitTarget o)).
  set (x := vx (cameraPosition cam)); set (y := vy (cameraPosition cam)).
  set (z := vz (cameraPosition cam)).
  change (targetZoom o * sin (orbitAngle o) * cos (orbitPitch o))
    with (vx (orbitTarget o)).
  change (targetZoom o * sin (orbitPitch o)) with (vy (orbitTarget o)).
  change (targetZoom o * cos (orbitAngle o) * cos (orbitPitch o))
    with (vz (orbitTarget o)).
  set (a := vx (orbitTarget o)); set (b := vy (orbitTarget o)).
  set (c := vz (orbitTarget o)).
  pose proof (Rle_0_sqr (x - a)) as Hx; pose proof (Rle_0_sqr (y - b)) as Hy.
  pose proof (Rle_0_sqr (z - c)) as Hz; unfold Rsqr in Hx, Hy, Hz.
  nra.
Qed.

Lemma onMouseMove_targetZoom (v : Viewport) (e : MouseEvent) (c : Controls) :
  targetZoom (orbit (onMouseMove v e c)) = targetZoom (orbit c).
Proof.
  unfold onMouseMove; cbn [isMouseDown setMouse].
  destruct (isMouseDown (pointer c)); [|reflexivity].
  destruct (Rltb 5 _); reflexivity.
Qed.

Lemma onTouchMove_targetZoom (e : TouchEvent) (c : Controls) :
  10 <= targetZoom (orbit c) <= 300 ->
  10 <= targetZoom (orbit (stateOf (onTouchMove e c))) <= 300.
Proof.
  intros Hz; unfold onTouchMove.
  destruct (touches e) as [|t0 [|t1 [|t2 ts]]]; try exact Hz.
  - destruct (Rltb 5 _); exact Hz.
  - cbn [stateOf orbit targetZoom setTargetZoom].
    pose proof (clamp_bounds 15 250
                  (targetZoom (orbit c) +
                   (touchStartDistance (pointer c) - touchDistance t0 t1) * 0.5)
                  ltac:(lra)) as Hc.
    unfold clamp in Hc; lra.
Qed.

Section WorldInvariants.

Variable measureText : Font -> string -> R.
Variable context2d : bool.

Local Abbreviation mountWorld' := (mountWorld measureText context2d).
Local Abbreviation step' := (step measureText context2d).
Local Abbreviation run' := (run measureText context2d).

Lemma mountWorld_cameraInRange (songs : list Song) (p : Playback)
    (v : Viewport) :
  cameraInRange (mountWorld' songs p v).
Proof.
  unfold cameraInRange, mountWorld, normSq; simpl; repeat split; lra.
Qed.

Lemma step_cameraInRange (w : World) (op : Op) :
  cameraInRange w -> cameraInRange (step' w op).
Proof.
  intros [Hz [Hp Hc]]; destruct op; unfold cameraInRange;
    cbn [step animate handleResize withControls controls camera orbit
         pointer cameraPosition];
    try (split; [exact Hz|]; split; [exact Hp | exact Hc]).
  - (* a frame *)
    split; [exact Hz|]; split; [exact Hp|].
    pose proof (animateCamera_normSq (orbit (controls w)) (camera w)) as Hn.
    rewrite orbitTarget_normSq in Hn; nra.
  - (* a wheel tick *)
    split; [apply onWheel_in_bounds|]; split; [exact Hp | exact Hc].
  - (* a mouse move *)
    rewrite onMouseMove_targetZoom.
    split; [exact Hz|]; split; [|exact Hc].
    apply (onMouseMove_pitch (viewport w) e (controls w)); exact Hp.
  - (* a touch move *)
    split; [apply onTouchMove_targetZoom, Hz|]; split; [|exact Hc].
    rewrite (proj2 (onTouchMove_orbit e (controls w))); exact Hp.
Qed.

(** However frames, playback updates, resizes, wheel ticks, mouse and
    touch events follow each other after the mount, the zoom stays
    within [10, 300], the pitch within [-1.2, 1.2], and the camera no
    farther than 300 from the origin. *)
Theorem camera_stays_in_range
    (songs : list Song) (p : Playback) (v : Viewport) (ops : list Op) :
  let w := run' ops (mountWorld' songs p v) in
  10 <= targetZoom (orbit (controls w)) <= 300 /\
  -1.2 <= orbitPitch (orbit (controls w)) <= 1.2 /\
  normSq (cameraPosition (camera w)) <= 300 * 300.
Proof.
  cbv zeta; change (cameraInRange (run' ops (mountWorld' songs p v))).
  generalize (mountWorld_cameraInRange songs p v).
  generalize (mountWorld' songs p v) as w.
  induction ops as [|op ops IH]; intros w Hw; simpl; [exact Hw|].
  apply IH, step_cameraInRange, Hw.
Qed.

Lemma updateCard_song (p : Playback) (lastTime : R) (c : Card) :
  song (updateCard measureText context2d p lastTime c) = song c /\
  scale (updateCard measureText context2d p lastTime c) = scale c.
Proof.
  unfold updateCard.
  destruct (redrawsActive p lastTime c); [split; reflexivity|].
  destruct (negb (isCurrent p c)); [|split; reflexivity].
  destruct (wasPlaying c); split; reflexivity.
Qed.

Lemma render_songs (p : Playback) (g : Gallery) :
  map song (cards (render measureText context2d p g)) = map song (cards g) /\
  map scale (cards (render measureText context2d p g)) = map scale (cards g).
Proof.
  unfold render; cbn [cards]; destruct (runsEffect p g); [|split; reflexivity].
  cbn [playbackEffect cards]; rewrite !map_map.
  split; apply map_ext; intros c; apply updateCard_song.
Qed.

Lemma unit_scale_lerp : lerpVec3 (mkVec3 1 1 1) (mkVec3 1 1 1) 0.08 = mkVec3 1 1 1.
Proof. unfold lerpVec3; cbn [vx vy vz]; f_equal; lra. Qed.

Lemma animate_songs (w : World) :
  map song (cards (gallery (animate w))) = map song (cards (gallery w)) /\
  (Forall (fun c => scale c = mkVec3 1 1 1) (cards (gallery w)) ->
   Forall (fun c => scale c = mkVec3 1 1 1) (cards (gallery (animate w)))).
Proof.
  cbn [animate gallery cards]; unfold forEachIdx.
  generalize 0%nat as idx.
  induction (cards (gallery w)) as [|c cs IH]; intros idx; simpl.
  - split; [reflexivity | auto].
  - destruct (IH (S idx)) as [Hs Hsc]; rewrite Hs.
    split; [reflexivity|].
    intros Hall; inversion Hall as [|? ? Hc Hcs]; subst.
    constructor; [|apply Hsc, Hcs].
    unfold animateCard; cbn [scale setScale]; rewrite Hc.
    apply unit_scale_lerp.
Qed.

Lemma step_followsSongs (songs : list Song) (w : World) (op : Op) :
  followsSongs songs w -> followsSongs songs (step' w op).
Proof.
  intros [Hs Hsc]; destruct op; try (split; assumption).
  - destruct (animate_songs w) as [Ha Hb].
    split; [cbn [step]; rewrite Ha; exact Hs | apply Hb, Hsc].
  - destruct (render_songs p (gallery w)) as [Ha Hb].
    split; [cbn [step gallery]; rewrite Ha; exact Hs|].
    cbn [step gallery].
    apply Forall_forall; intros c Hin.
    apply (in_map scale) in Hin; rewrite Hb in Hin.
    apply in_map_iff in Hin as [c0 [Hc0 Hin]].
    rewrite Forall_forall in Hsc; rewrite <- Hc0; apply Hsc, Hin.
Qed.

Lemma forEachFrom_map_const {A B C : Type} (f : A -> nat -> B) (g : B -> C)
    (h : A -> C) (xs : list A) :
  (forall x i, g (f x i) = h x) ->
  forall idx, map g (forEachFrom f idx xs) = map h xs.
Proof.
  intros Hf; induction xs as [|x xs IH]; intros idx; simpl; [reflexivity|].
  rewrite Hf, IH; reflexivity.
Qed.

Lemma mountWorld_followsSongs (songs : list Song) (p : Playback)
    (v : Viewport) :
  followsSongs songs (mountWorld' songs p v).
Proof.
  unfold followsSongs, mountWorld, mount; cbn [gallery].
  destruct (render_songs p
              (mkGallery (buildCards measureText context2d songs
                            (currentSong p) (isPlaying p)) 0 None))
    as [Ha Hb].
  cbn [cards] in Ha, Hb.
  assert (Hsongs : map song (buildCards measureText context2d songs
                               (currentSong p) (isPlaying p)) = songs).
  { unfold buildCards, forEachIdx.
    rewrite (forEachFrom_map_const _ song (fun s => s)); [apply map_id|].
    reflexivity. }
  assert (Hscale : map scale (buildCards measureText context2d songs
                                (currentSong p) (isPlaying p)) =
                   map (fun _ => mkVec3 1 1 1) songs).
  { unfold buildCards, forEachIdx.
    apply forEachFrom_map_const; reflexivity. }
  split; [rewrite Ha; exact Hsongs|].
  apply Forall_forall; intros c Hin.
  apply (in_map scale) in Hin; rewrite Hb, Hscale in Hin.
  apply in_map_iff in Hin as [s [Hs _]]; symmetry; exact Hs.
Qed.

(** Through the whole life of the component there is one card per song,
    in the order of the songs, and the render loop's scale interpolation
    never changes anything: every card keeps the scale (1, 1, 1). *)
Theorem cards_follow_songs
    (songs : list Song) (p : Playback) (v : Viewport) (ops : list Op) :
  let w := run' ops (mountWorld' songs p v) in
  map song (cards (gallery w)) = songs /\
  List.length (cards (gallery w)) = List.length songs /\
  Forall (fun c => scale c = mkVec3 1 1 1) (cards (gallery w)).
Proof.
  cbv zeta.
  assert (H : followsSongs songs (run' ops (mountWorld' songs p v))).
  { generalize (mountWorld_followsSongs songs p v).
    generalize (mountWorld' songs p v) as w.
    induction ops as [|op ops IH]; intros w Hw; simpl; [exact Hw|].
    apply IH, step_followsSongs, Hw. }
  destruct H as [Hs Hsc]; split; [exact Hs|]; split; [|exact Hsc].
  rewrite <- Hs at 2; rewrite length_map; reflexivity.
Qed.

End WorldInvariants.

(** ** When a texture changes *)

Section TextureChanges.

Variable measureText : Font -> string -> R.
Variable context2d : bool.

Local Abbreviation draw := (drawPlayerCanvas measureText context2d).
Local Abbreviation updateCard' := (updateCard measureText context2d).
Local Abbreviation render' := (render measureText context2d).
Local Abbreviation mount' := (mount measureText context2d).
Local Abbreviation renders' := (renders measureText context2d).

Lemma updateCard_cases (p : Playback) (lastTime : R) (c : Card) :
  plainCanvas c ->
  updateCard' p lastTime c =
  if redrawsActive p lastTime c
  then setImage (draw (song c) true (isPlaying p)
                   (currentTime p / progressDivisor (song c))) c
  else c.
Proof.
  intros Hc; unfold updateCard.
  destruct (redrawsActive p lastTime c); [reflexivity|].
  destruct (negb (isCurrent p c)); [|reflexivity].
  rewrite (plainCanvas_not_wasPlaying c Hc); reflexivity.
Qed.

Lemma near_miss_redraws_nothing (p : Playback) (lastTime : R) (c : Card) :
  0 < Rabs (currentTime p - lastTime) < 0.5 ->
  redrawsActive p lastTime c = false.
Proof.
  intros Hd; unfold redrawsActive, shouldUpdateTime, timeDiff.
  rewrite (proj2 (Rleb_false _ _)) by lra.
  rewrite (proj2 (Reqb_false _ _)) by lra.
  apply andb_false_r.
Qed.

(** Every change of a card after the mount is a redraw of the current
    song's card as the active one, in a render whose effect ran with the
    time at least half a second from [lastTimeRef] or equal to it.  In
    particular a render whose time is less than half a second from
    [lastTimeRef], and not equal to it, changes no card, even when the
    current song or the playing flag has just changed. *)
Theorem textures_change_only_when_due
    (songs : list Song) (p0 : Playback) (ps : list Playback) (p : Playback) :
  let g := renders' ps (mount' songs p0) in
  let g' := render' p g in
  (forall i c c',
     nth_error (cards g) i = Some c -> nth_error (cards g') i = Some c' ->
     c' <> c ->
     runsEffect p g = true /\
     id (song c) = id (currentSong p) /\
     (0.5 <= Rabs (currentTime p - lastTimeRef g)
      \/ currentTime p = lastTimeRef g) /\
     c' = setImage (draw (song c) true (isPlaying p)
                      (currentTime p / progressDivisor (song c))) c) /\
  (0 < Rabs (currentTime p - lastTimeRef g) < 0.5 ->
     cards g' = cards g /\ lastTimeRef g' = lastTimeRef g) /\
  (runsEffect p g = true ->
   0.5 <= Rabs (currentTime p - lastTimeRef g) ->
     lastTimeRef g' = currentTime p).
Proof.
  intros g g'.
  pose proof (renders_plain measureText context2d ps _
                (mount_plain measureText context2d songs p0)) as Hplain.
  fold g in Hplain; rewrite Forall_forall in Hplain.
  split; [|split].
  - intros i c c' Hc Hc' Hneq.
    assert (Hin : In c (cards g)) by (eapply nth_error_In; exact Hc).
    unfold g', render in Hc'; cbn [cards] in Hc'.
    destruct (runsEffect p g); [|congruence].
    cbn [playbackEffect cards] in Hc'.
    rewrite nth_error_map, Hc in Hc'; cbn [option_map] in Hc'.
    injection Hc' as Hc'.
    rewrite (updateCard_cases p (lastTimeRef g) c (Hplain c Hin)) in Hc'.
    destruct (redrawsActive p (lastTimeRef g) c) eqn:Hr; [|congruence].
    apply redrawsActive_iff in Hr as [Hid Ht].
    split; [reflexivity|]; split; [exact Hid|]; split; [exact Ht|].
    symmetry; exact Hc'.
  - intros Hd; unfold g', render; cbn [cards lastTimeRef].
    destruct (runsEffect p g); [|split; reflexivity].
    cbn [playbackEffect cards lastTimeRef]; split.
    + rewrite <- (map_id (cards g)) at 2; apply map_ext_in; intros c Hin.
      rewrite (updateCard_cases p (lastTimeRef g) c (Hplain c Hin)).
      rewrite (near_miss_redraws_nothing p (lastTimeRef g) c Hd); reflexivity.
    + unfold shouldUpdateTime, timeDiff.
      rewrite (proj2 (Rleb_false _ _)) by lra; reflexivity.
  - intros Hrun Hd; unfold g', render; rewrite Hrun.
    cbn [playbackEffect lastTimeRef]; unfold shouldUpdateTime, timeDiff.
    rewrite (proj2 (Rleb_true _ _) Hd); reflexivity.
Qed.

End TextureChanges.

(** ** A cover load that succeeds *)

Lemma load_at_most_one_cover (url : string) (results : list LoadResult) :
  forall retries,
    (List.length (coversAdded (loadAlbumArt url retries results)) <= 1)%nat.
Proof.
  induction results as [|r results IH]; intros retries; simpl; [lia|].
  destruct r as [w h| |]; try destruct (Reqb w 0 || Reqb h 0);
    destruct retries as [|n]; simpl; try lia; apply IH.
Qed.

Lemma load_success_after_failures (url : string) (w h : R)
    (rest : list LoadResult) (fails : list LoadResult) :
  Forall (fun r => isFailure r = true) fails ->
  w <> 0 -> h <> 0 ->
  forall retries,
    (List.length fails <= retries)%nat ->
    let t := loadAlbumArt url retries (fails ++ Decoded w h :: rest) in
    coversAdded t = [coverMesh w h] /\
    fetches t = S (List.length fails) /\
    delays t = map failureDelay fails.
Proof.
  intros Hfails Hw Hh.
  assert (Hvalid : Reqb w 0 || Reqb h 0 = false).
  { rewrite (proj2 (Reqb_false _ _) Hw), (proj2 (Reqb_false _ _) Hh).
    reflexivity. }
  unfold fetches.
  induction Hfails as [|r fails Hr _ IH]; intros retries Hlen; simpl in *.
  - rewrite Hvalid; simpl; auto.
  - destruct retries as [|n]; [lia|].
    destruct (IH n ltac:(lia)) as [Hc [Hf Hd]].
    destruct r as [w' h'| |]; simpl in Hr; try rewrite Hr; simpl;
      try discriminate; rewrite Nat.sub_0_r, Hc, Hf, Hd; auto.
Qed.

(** The loader stops at the first image that decodes with both
    dimensions: after up to three failed loads, such an image is fitted
    and added as the one cover of the card; the loader has fetched once
    per failure and once more, has waited once per failure, and whatever
    would have come later is never asked for.  No run of the loader adds
    more than one cover. *)
Theorem load_stops_at_first_image
    (s : Song) (fails : list LoadResult) (w h : R) (rest : list LoadResult)
    (Hfails : Forall (fun r => isFailure r = true) fails)
    (Hlen : (List.length fails <= 3)%nat)
    (Hw : w <> 0) (Hh : h <> 0) :
  let t := startLoad s (fails ++ Decoded w h :: rest) in
  coversAdded t = [coverMesh w h] /\
  fetches t = S (List.length fails) /\
  delays t = map failureDelay fails /\
  (forall c, covers (applyLoad t c) = covers c ++ [coverMesh w h]) /\
  (forall results,
     (List.length (coversAdded (startLoad s results)) <= 1)%nat).
Proof.
  cbv zeta; unfold startLoad.
  destruct (load_success_after_failures (coverUrl s) w h rest fails
              Hfails Hw Hh 3 Hlen) as [Hc [Hf Hd]].
  split; [exact Hc|]; split; [exact Hf|]; split; [exact Hd|]; split.
  - intros c; unfold applyLoad; rewrite Hc; reflexivity.
  - intros results; apply load_at_most_one_cover.
Qed.

Lemma load_stops_at_first_image_witness :
  let t := startLoad midnightCity
             ([LoadError; NoImage] ++ Decoded 480 360 :: [LoadError]) in
  coversAdded t = [coverMesh 480 360] /\
  fetches t = 3%nat /\
  delays t = [1000; 500].
Proof.
  destruct (load_stops_at_first_image midnightCity [LoadError; NoImage]
              480 360 [LoadError]
              ltac:(repeat constructor) ltac:(simpl; lia)
              ltac:(lra) ltac:(lra)) as [Hc [Hf [Hd _]]].
  split; [exact Hc|]; split; [exact Hf | exact Hd].
Defined.

(** ** Taps *)

Lemma onTouchMove_one_finger (t : Touch) (c : Controls) :
  let far :=
    Rltb 5 (moveDistance (lastTouchX (pointer c)) (lastTouchY (pointer c))
              (touchX t) (touchY t)) in
  stateOf (onTouchMove (oneFinger t) c) =
  mkControls (orbit c)
    (if far then setHasDragged true (pointer c)
     else setLastTouch (touchX t) (touchY t) (pointer c)).
Proof.
  cbv zeta; unfold onTouchMove, oneFinger; cbn [touches].
  destruct (Rltb 5 _); reflexivity.
Qed.

Lemma touch_moves_hasDragged (moves : list Touch) :
  forall c,
    hasDragged
      (pointer (fold_left (fun c t => stateOf (onTouchMove (oneFinger t) c))
                  moves c)) =
    hasDragged (pointer c)
    || existsb (Rltb 5)
         (touchSteps (lastTouchX (pointer c)) (lastTouchY (pointer c)) moves).
Proof.
  induction moves as [|t moves IH]; intros c; cbn [fold_left touchSteps existsb].
  - rewrite orb_false_r; reflexivity.
  - rewrite IH, onTouchMove_one_finger.
    destruct (Rltb 5 _) eqn:Hfar; cbn [pointer].
    + cbn [hasDragged setHasDragged]; rewrite orb_true_r; reflexivity.
    + cbn [hasDragged lastTouchX lastTouchY setLastTouch].
      reflexivity.
Qed.

Lemma touch_moves_orbit (moves : list Touch) :
  forall c,
    orbit (fold_left (fun c t => stateOf (onTouchMove (oneFinger t) c))
             moves c) = orbit c.
Proof.
  induction moves as [|t moves IH]; intros c; cbn [fold_left]; [reflexivity|].
  rewrite IH, onTouchMove_one_finger; reflexivity.
Qed.

Section TapFacts.

Variable intersectObjects : Camera -> R * R -> list Card -> list Object3D.

Local Abbreviation pick' := (pick intersectObjects).
Local Abbreviation onTouchEnd' := (onTouchEnd intersectObjects).

(** One finger: a touch is a drag exactly when one of its moves, taken
    alone, covers more than 5px; the orbit never moves.  When the finger
    lifts, a touch that was no drag picks at the place where it lifted,
    a drag picks nothing, and either way the flag is down again. *)
Theorem tap_or_touch_drag
    (v : Viewport) (cam : Camera) (cs : list Card)
    (start : Touch) (moves : list Touch) (lift : Touch) (c : Controls) :
  let c' := touchGesture start moves c in
  let dragged := existsb (Rltb 5) (touchSteps (touchX start) (touchY start) moves) in
  let ended := onTouchEnd' v cam cs (mkTouchEvent [] [lift]) (pointer c') in
  hasDragged (pointer c') = dragged /\
  orbit c' = orbit c /\
  hasDragged (fst ended) = false /\
  snd ended =
    if dragged then []
    else pick' cam (touchX lift / innerWidth v * 2 - 1,
                    - (touchY lift / innerHeight v) * 2 + 1) cs.
Proof.
  cbv zeta.
  assert (Hd : hasDragged (pointer (touchGesture start moves c)) =
               existsb (Rltb 5)
                 (touchSteps (touchX start) (touchY start) moves)).
  { unfold touchGesture; rewrite touch_moves_hasDragged; reflexivity. }
  split; [exact Hd|].
  split; [unfold touchGesture; rewrite touch_moves_orbit; reflexivity|].
  unfold onTouchEnd; cbn [touches changedTouches List.length Nat.eqb andb].
  rewrite Hd; destruct (existsb _ _); split; reflexivity.
Qed.

End TapFacts.

(** ** The [roundRect] polyfill *)

(** The polyfill never rounds a corner by more than half of either side:
    the radius it draws with is the one asked for when that fits, and
    half the shorter side otherwise, and it is not negative when the
    sides and the radius asked for are not.  All four arcs use it, and
    the path starts that far along the top edge. *)
Theorem roundRectPolyfill_radius (x y w h r : R) :
  let r' := polyfillRadius w h r in
  roundRectPolyfill x y w h r =
    [ BeginPath; MoveTo (x + r') y;
      ArcTo (x + w) y (x + w) (y + h) r';
      ArcTo (x + w) (y + h) x (y + h) r';
      ArcTo x (y + h) x y r';
      ArcTo x y (x + w) y r';
      ClosePath ] /\
  2 * r' <= w /\ 2 * r' <= h /\ r' <= r /\
  (2 * r <= w -> 2 * r <= h -> r' = r) /\
  (w <= h -> w < 2 * r -> r' = w / 2) /\
  (h <= w -> h < 2 * r -> r' = h / 2) /\
  (0 <= w -> 0 <= h -> 0 <= r -> 0 <= r').
Proof.
  cbv zeta; split; [reflexivity|]; unfold polyfillRadius.
  destruct (Rltb w (2 * r)) eqn:Hw;
    [apply Rltb_true in Hw | apply Rltb_false in Hw].
  - destruct (Rltb h (2 * (w / 2))) eqn:Hh;
      [apply Rltb_true in Hh | apply Rltb_false in Hh];
      repeat split; intros; lra.
  - destruct (Rltb h (2 * r)) eqn:Hh;
      [apply Rltb_true in Hh | apply Rltb_false in Hh];
      repeat split; intros; lra.
Qed.

(** ** The queue *)

Lemma findIndexFrom_range (current : option Song) (q : list Song) :
  forall k,
    App.findIndexFrom current k q = (-1)%Z \/
    (k <= App.findIndexFrom current k q < k + Z.of_nat (List.length q))%Z.
Proof.
  induction q as [|s q IH]; intros k; simpl App.findIndexFrom; [left; reflexivity|].
  destruct (App.sameId current s); [right; simpl List.length; lia|].
  destruct (IH (k + 1)%Z) as [Hm | Hr]; [left; exact Hm|].
  right; simpl List.length; lia.
Qed.

Lemma item_in_range (q : list Song) (i : Z) :
  (0 <= i < Z.of_nat (List.length q))%Z ->
  exists s, App.item q i = Some s /\ In s q.
Proof.
  intros Hi; unfold App.item.
  rewrite (proj2 (Z.ltb_ge i 0)) by lia.
  destruct (nth_error q (Z.to_nat i)) as [s|] eqn:Hs.
  - exists s; split; [reflexivity|]; eapply nth_error_In; exact Hs.
  - apply nth_error_None in Hs; lia.
Qed.

Lemma skip_index_in_range (ci len : Z) :
  (0 < len)%Z -> (-1 <= ci < len)%Z ->
  (0 <= Z.rem (ci + 1) len < len)%Z /\ (0 <= Z.rem (ci - 1 + len) len < len)%Z.
Proof.
  intros Hlen Hci; split.
  - rewrite Z.rem_mod_nonneg by lia; apply Z.mod_pos_bound; lia.
  - destruct (Z.eq_dec len 1) as [-> | Hne].
    + rewrite Z.rem_1_r; lia.
    + rewrite Z.rem_mod_nonneg by lia; apply Z.mod_pos_bound; lia.
Qed.

(** On a queue that is not empty, a skip in either direction always
    lands on a song of the queue and starts it playing, whatever the
    current song was, one that is not in the queue or none at all
    included; the queue itself is left alone. *)
Theorem skipTrack_lands_in_queue
    (direction : App.Direction) (st : App.State)
    (Hq : App.queue st <> []) :
  exists s,
    App.currentSong (App.skipTrack direction st) = Some s /\
    In s (App.queue st) /\
    App.isPlaying (App.skipTrack direction st) = true /\
    App.queue (App.skipTrack direction st) = App.queue st.
Proof.
  unfold App.skipTrack.
  assert (Hlen : (0 < Z.of_nat (List.length (App.queue st)))%Z).
  { destruct (App.queue st); [congruence | simpl; lia]. }
  rewrite (proj2 (Z.eqb_neq _ 0)) by lia.
  assert (Hci : (-1 <= App.findIndex (App.currentSong st) (App.queue st)
                 < Z.of_nat (List.length (App.queue st)))%Z).
  { unfold App.findIndex.
    destruct (findIndexFrom_range (App.currentSong st) (App.queue st) 0)
      as [-> | Hr]; lia. }
  destruct (skip_index_in_range _ _ Hlen Hci) as [Hn Hp].
  destruct direction.
  - destruct (item_in_range _ _ Hn) as [s [Hs Hin]].
    exists s; rewrite Hs; simpl; auto.
  - destruct (item_in_range _ _ Hp) as [s [Hs Hin]].
    exists s; rewrite Hs; simpl; auto.
Qed.

Lemma skipTrack_lands_in_queue_witness :
  exists s,
    App.currentSong
      (App.skipTrack App.Prev
         (App.mkState None false 0 0 [midnightCity])) = Some s /\
    In s [midnightCity].
Proof.
  destruct (skipTrack_lands_in_queue App.Prev
              (App.mkState None false 0 0 [midnightCity])
              ltac:(simpl; discriminate)) as [s [Hs [Hin _]]].
  exists s; split; [exact Hs | exact Hin].
Defined.

Lemma findIndexFrom_unique (q : list Song) :
  NoDup (map id q) ->
  forall i s k,
    nth_error q i = Some s ->
    App.findIndexFrom (Some s) k q = (k + Z.of_nat i)%Z.
Proof.
  induction q as [|s0 q IH]; intros Hnd i s k Hs; [destruct i; discriminate|].
  inversion Hnd as [|? ? Hnotin Hnd']; subst.
  destruct i as [|i]; simpl in Hs; simpl App.findIndexFrom.
  - injection Hs as ->; unfold App.sameId; rewrite String.eqb_refl; lia.
  - unfold App.sameId; destruct (String.eqb (id s0) (id s)) eqn:Heq.
    + apply String.eqb_eq in Heq; exfalso; apply Hnotin.
      rewrite Heq; apply in_map; eapply nth_error_In; exact Hs.
    + rewrite (IH Hnd' i s (k + 1)%Z Hs); lia.
Qed.

Lemma item_nth (q : list Song) (i : nat) : App.item q (Z.of_nat i) = nth_error q i.
Proof.
  unfold App.item; rewrite (proj2 (Z.ltb_ge _ 0)) by lia.
  rewrite Nat2Z.id; reflexivity.
Qed.

(** With the ids of the queue all different and the current song at
    index [i] of the [n] songs, next goes to index [(i + 1) mod n] and
    previous to [(i + n - 1) mod n], wrapping at both ends; so next and
    then previous, or previous and then next, come back to the song they
    started from. *)
Theorem skipTrack_steps_and_returns
    (st : App.State) (i : nat) (s : Song)
    (Hids : NoDup (map id (App.queue st)))
    (Hs : nth_error (App.queue st) i = Some s)
    (Hcur : App.currentSong st = Some s) :
  let n := List.length (App.queue st) in
  App.currentSong (App.skipTrack App.Next st) =
    nth_error (App.queue st) ((i + 1) mod n) /\
  App.currentSong (App.skipTrack App.Prev st) =
    nth_error (App.queue st) ((i + n - 1) mod n) /\
  App.currentSong (App.skipTrack App.Prev (App.skipTrack App.Next st)) =
    Some s /\
  App.currentSong (App.skipTrack App.Next (App.skipTrack App.Prev st)) =
    Some s.
Proof.
  cbv zeta.
  set (q := App.queue st) in *; set (n := List.length q).
  assert (Hi : (i < n)%nat) by (apply nth_error_Some; rewrite Hs; discriminate).
  assert (Hn0 : (Z.of_nat n =? 0)%Z = false) by (apply Z.eqb_neq; lia).
  assert (Hstep : forall d st' j t,
            App.queue st' = q -> nth_error q j = Some t ->
            App.currentSong st' = Some t ->
            App.currentSong (App.skipTrack d st') =
            nth_error q (match d with
                         | App.Next => (j + 1) mod n
                         | App.Prev => (j + n - 1) mod n
                         end)).
  { intros d st' j t Hq Ht Hc.
    assert (Hj : (j < n)%nat) by (apply nth_error_Some; rewrite Ht; discriminate).
    unfold App.skipTrack, App.findIndex; rewrite Hq, Hc; fold n; rewrite Hn0.
    rewrite (findIndexFrom_unique q Hids j t 0 Ht).
    destruct d; cbn [App.playSong App.currentSong].
    - rewrite Z.rem_mod_nonneg by lia.
      replace ((0 + Z.of_nat j + 1) mod Z.of_nat n)%Z
        with (Z.of_nat ((j + 1) mod n)) by (rewrite Nat2Z.inj_mod; f_equal; lia).
      apply item_nth.
    - rewrite Z.rem_mod_nonneg by lia.
      replace ((0 + Z.of_nat j - 1 + Z.of_nat n) mod Z.of_nat n)%Z
        with (Z.of_nat ((j + n - 1) mod n))
        by (rewrite Nat2Z.inj_mod; f_equal; lia).
      apply item_nth. }
  assert (Hnext := Hstep App.Next st i s eq_refl Hs Hcur).
  assert (Hprev := Hstep App.Prev st i s eq_refl Hs Hcur).
  split; [exact Hnext|]; split; [exact Hprev|].
  assert (Hqn : forall d, App.queue (App.skipTrack d st) = q).
  { intros d; unfold App.skipTrack; fold q; fold n; rewrite Hn0; reflexivity. }
  assert (Hup : ((i + 1) mod n < n)%nat) by (apply Nat.mod_upper_bound; lia).
  assert (Hdn : ((i + n - 1) mod n < n)%nat) by (apply Nat.mod_upper_bound; lia).
  destruct (nth_error q ((i + 1) mod n)) as [t|] eqn:Ht;
    [|apply nth_error_None in Ht; lia].
  destruct (nth_error q ((i + n - 1) mod n)) as [u|] eqn:Hu;
    [|apply nth_error_None in Hu; lia].
  split.
  - rewrite (Hstep App.Prev _ _ t (Hqn App.Next) Ht Hnext), <- Hs; f_equal.
    destruct (Nat.eq_dec (i + 1) n) as [He | Hne].
    + rewrite He, Nat.Div0.mod_same; simpl.
      rewrite Nat.mod_small by lia; lia.
    + rewrite (Nat.mod_small (i + 1)) by lia.
      replace (i + 1 + n - 1)%nat with (i + 1 * n)%nat by lia.
      rewrite Nat.Div0.mod_add; apply Nat.mod_small; lia.
  - rewrite (Hstep App.Next _ _ u (Hqn App.Prev) Hu Hprev), <- Hs; f_equal.
    destruct i as [|i].
    + replace (0 + n - 1)%nat with (n - 1)%nat by lia.
      rewrite (Nat.mod_small (n - 1)) by lia.
      replace (n - 1 + 1)%nat with n by lia; apply Nat.Div0.mod_same.
    + replace (S i + n - 1)%nat with (i + 1 * n)%nat by lia.
      rewrite Nat.Div0.mod_add, (Nat.mod_small i) by lia.
      rewrite Nat.mod_small; lia.
Qed.

Lemma skipTrack_steps_and_returns_witness :
  let st := App.mkState (Some levitating) true 12 203
              [midnightCity; starboy; levitating] in
  App.currentSong (App.skipTrack App.Next st) = Some midnightCity /\
  App.currentSong (App.skipTrack App.Prev (App.skipTrack App.Next st)) =
    Some levitating.
Proof.
  destruct (skipTrack_steps_and_returns
              (App.mkState (Some levitating) true 12 203
                 [midnightCity; starboy; levitating])
              2 levitating
              ltac:(simpl; repeat constructor; simpl; intuition discriminate)
              eq_refl eq_refl) as [Hn [_ [Hb _]]].
  split; [exact Hn | exact Hb].
Defined.

(** ** The spectrum bars *)

Lemma byte_level (d : Byte.byte) :
  0 <= IZR (Z.of_N (Byte.to_N d)) / 255 <= 1.
Proof.
  pose proof (Byte.to_N_bounded d) as Hb.
  assert (H0 : 0 <= IZR (Z.of_N (Byte.to_N d))) by (apply IZR_le; lia).
  assert (H1 : IZR (Z.of_N (Byte.to_N d)) <= 255) by (apply IZR_le; lia).
  apply div_in_unit; lra.
Qed.

(** For the 32 bytes of frequency data, every bar lies inside the
    100 by 40 drawing and stands on its bottom edge; the bars are 2.125
    wide and one unit apart; and the bar at index [i] starts at 3.125 i
    and is as high as its byte is loud: its height is the byte's value
    over 255 times 40, so 0 for 0, 40 for 255, and higher for a larger
    byte. *)
Theorem bars_fit_the_drawing
    (data : list Byte.byte) (i : nat) (b : Visualizer.Rect)
    (Hlen : List.length data = Visualizer.bufferLength)
    (Hb : nth_error (Visualizer.bars data) i = Some b) :
  0 <= Visualizer.x b /\
  Visualizer.x b + Visualizer.width b <= 100 /\
  Visualizer.width b = 2.125 /\
  0 <= Visualizer.y b <= 40 /\
  0 <= Visualizer.height b <= 40 /\
  Visualizer.y b + Visualizer.height b = 40 /\
  (forall b', nth_error (Visualizer.bars data) (S i) = Some b' ->
     Visualizer.x b' - (Visualizer.x b + Visualizer.width b) = 1) /\
  Visualizer.x b = 3.125 * INR i /\
  (exists d,
     nth_error data i = Some d /\
     Visualizer.height b = IZR (Z.of_N (Byte.to_N d)) / 255 * 40 /\
     (d = Byte.x00 -> Visualizer.height b = 0) /\
     (d = Byte.xff -> Visualizer.height b = 40)) /\
  (forall j d d' b',
     nth_error data i = Some d -> nth_error data j = Some d' ->
     nth_error (Visualizer.bars data) j = Some b' ->
     (Byte.to_N d < Byte.to_N d')%N ->
     Visualizer.height b < Visualizer.height b').
Proof.
  unfold Visualizer.bars in *; rewrite forEachIdx_nth in Hb.
  destruct (nth_error data i) as [d|] eqn:Hd; [|discriminate].
  assert (Hi : (i < 32)%nat).
  { change 32%nat with Visualizer.bufferLength; rewrite <- Hlen.
    apply nth_error_Some; rewrite Hd; discriminate. }
  injection Hb as <-.
  pose proof (byte_level d) as Hv.
  assert (Hbw : Visualizer.barWidth = 3.125).
  { unfold Visualizer.barWidth, Visualizer.svgWidth, Visualizer.bufferLength.
    simpl INR; lra. }
  assert (Hi0 : 0 <= INR i) by apply pos_INR.
  assert (Hi31 : INR i <= 31).
  { replace 31 with (INR 31) by (simpl; lra); apply le_INR; lia. }
  unfold Visualizer.bar; cbn [Visualizer.x Visualizer.y Visualizer.width
                              Visualizer.height].
  rewrite Hbw; unfold Visualizer.svgHeight.
  split; [nra|]; split; [nra|]; split; [lra|]; split; [nra|].
  split; [nra|]; split; [lra|].
  split; [|split; [lra|split]].
  - intros b' Hb'; rewrite forEachIdx_nth in Hb'.
    destruct (nth_error data (S i)) as [d'|]; [|discriminate].
    injection Hb' as <-; unfold Visualizer.bar; cbn [Visualizer.x].
    destruct i as [|i]; [cbn [INR]; lra | lra].
  - exists d; split; [reflexivity|]; split; [reflexivity|].
    split; intros ->; simpl; lra.
  - intros j d0 d' b' Hd0 Hd' Hb' Hlt.
    injection Hd0 as <-.
    rewrite forEachIdx_nth, Hd' in Hb'; injection Hb' as <-.
    unfold Visualizer.bar; cbn [Visualizer.height].
    unfold Visualizer.svgHeight.
    assert (Hz : IZR (Z.of_N (Byte.to_N d)) < IZR (Z.of_N (Byte.to_N d')))
      by (apply IZR_lt; lia).
    lra.
Qed.

Lemma bars_fit_the_drawing_witness :
  let data := repeat Byte.xff 32 in
  exists b,
    nth_error (Visualizer.bars data) 31 = Some b /\
    0 <= Visualizer.x b /\ Visualizer.x b + Visualizer.width b <= 100 /\
    Visualizer.height b = 40.
Proof.
  exists (Visualizer.bar Byte.xff 31).
  assert (Hb : nth_error (Visualizer.bars (repeat Byte.xff 32)) 31 =
               Some (Visualizer.bar Byte.xff 31)) by reflexivity.
  destruct (bars_fit_the_drawing (repeat Byte.xff 32) 31
              (Visualizer.bar Byte.xff 31) eq_refl Hb)
    as [H0 [H1 [_ [_ [_ [_ [_ [_ [[d [Hd [_ [_ Hff]]]] _]]]]]]]]].
  split; [exact Hb|]; split; [exact H0|]; split; [exact H1|].
  apply Hff; simpl in Hd; congruence.
Defined.

(** ** Durations *)

Lemma isDigit_uint_head (d : Decimal.uint) (u : ascii) (rest : string) :
  isDigit u = false ->
  digitRun (String.append (NilEmpty.string_of_uint d) (String u rest)) =
  (NilEmpty.string_of_uint d, String u rest).
Proof.
  intros Hu; induction d as [|d IH|d IH|d IH|d IH|d IH|d IH|d IH|d IH|d IH|d IH];
    cbn [NilEmpty.string_of_uint String.append digitRun];
    try (rewrite IH; reflexivity).
  rewrite Hu; reflexivity.
Qed.

Lemma decimal_cases (n : N) :
  exists a ds,
    decimal n = String a ds /\ isDigit a = true /\
    exists d, decimal n = NilEmpty.string_of_uint d /\ N.of_uint d = n.
Proof.
  unfold decimal; pose proof (DecimalN.Unsigned.of_to n) as Hn.
  destruct (N.to_uint n) as [|d|d|d|d|d|d|d|d|d|d] eqn:Hd;
    cbn [NilZero.string_of_uint NilEmpty.string_of_uint].
  1: { exists "0"%char, EmptyString.
       split; [reflexivity|]; split; [reflexivity|].
       exists (Decimal.D0 Decimal.Nil); split; [reflexivity|].
       rewrite <- Hn; reflexivity. }
  all: do 2 eexists; split; [reflexivity|]; split; [reflexivity|];
       match type of Hn with N.of_uint ?u = _ => exists u end;
       split; [reflexivity | exact Hn].
Qed.

Lemma parseDigits_decimal (n : N) : parseDigits (Some (decimal n)) = n.
Proof.
  destruct (decimal_cases n) as [a [ds [_ [_ [d [Hd Hn]]]]]].
  unfold parseDigits; rewrite Hd, NilEmpty.usu; exact Hn.
Qed.

(** A component that is there is captured whole. *)
Lemma optionalComponent_present (n : N) (u : ascii) (rest : string) :
  isDigit u = false ->
  optionalComponent u (String.append (decimal n) (String u rest)) =
  (Some (decimal n), rest).
Proof.
  intros Hu; destruct (decimal_cases n) as [a [ds [Ha [_ [d [Hd _]]]]]].
  unfold optionalComponent; rewrite Hd, (isDigit_uint_head d u rest Hu).
  rewrite <- Hd, Ha, Ascii.eqb_refl; reflexivity.
Qed.

(** A component of another unit is left where it is. *)
Lemma optionalComponent_other (n : N) (u u' : ascii) (rest : string) :
  isDigit u' = false -> Ascii.eqb u' u = false ->
  optionalComponent u (String.append (decimal n) (String u' rest)) =
  (None, String.append (decimal n) (String u' rest)).
Proof.
  intros Hu Hne; destruct (decimal_cases n) as [a [ds [Ha [_ [d [Hd _]]]]]].
  unfold optionalComponent; rewrite Hd, (isDigit_uint_head d u' rest Hu).
  rewrite <- Hd, Ha, Hne; reflexivity.
Qed.

Lemma append_unit (s : string) (u : ascii) (rest : string) :
  String.append (String.append s (String u EmptyString)) rest =
  String.append s (String u rest).
Proof. induction s as [|a s IH]; simpl; [reflexivity | rewrite IH; reflexivity]. Qed.

Lemma timePart_value (h m s : option N) :
  (let '(gh, r) := optionalComponent "H" (timePart h m s) in
   let '(gm, r) := optionalComponent "M" r in
   let '(gs, _) := optionalComponent "S" r in
   (parseDigits gh * 3600 + parseDigits gm * 60 + parseDigits gs)%N) =
  (secondsOf h * 3600 + secondsOf m * 60 + secondsOf s)%N.
Proof.
  unfold timePart, component.
  destruct h as [h|], m as [m|], s as [s|];
    cbn [secondsOf String.append];
    rewrite ?append_unit; cbn [String.append];
    repeat first
      [ rewrite optionalComponent_present by reflexivity
      | rewrite optionalComponent_other by reflexivity
      | rewrite parseDigits_decimal ];
    try reflexivity.
Qed.

(** A duration without days parses to its seconds: hours, minutes and
    seconds, each counted when it is there, whichever of them are
    missing. *)
Theorem parseDuration_reads_time (h m s : option N) :
  parseDuration (isoDuration None h m s) =
  (secondsOf h * 3600 + secondsOf m * 60 + secondsOf s)%N.
Proof.
  unfold parseDuration, isoDuration; cbn [component String.append afterPT].
  cbn [Ascii.eqb Bool.eqb andb]; apply timePart_value.
Qed.

Lemma noP_append (a b : string) :
  noP (String.append a b) = noP a && noP b.
Proof.
  induction a as [|c a IH]; simpl; [reflexivity|].
  rewrite IH, andb_assoc; reflexivity.
Qed.

Lemma string_append_assoc (a b c : string) :
  String.append (String.append a b) c = String.append a (String.append b c).
Proof. induction a as [|x a IH]; simpl; [reflexivity | rewrite IH; reflexivity]. Qed.

Lemma noP_uint (d : Decimal.uint) : noP (NilEmpty.string_of_uint d) = true.
Proof. induction d; simpl; auto. Qed.

Lemma noP_decimal (n : N) : noP (decimal n) = true.
Proof.
  destruct (decimal_cases n) as [_ [_ [_ [_ [d [-> _]]]]]]; apply noP_uint.
Qed.

Lemma noP_component (n : option N) (u : string) :
  noP u = true -> noP (component n u) = true.
Proof.
  intros Hu; destruct n as [n|]; simpl; [|reflexivity].
  rewrite noP_append, noP_decimal, Hu; reflexivity.
Qed.

Lemma noP_afterPT (s : string) : noP s = true -> afterPT s = None.
Proof.
  induction s as [|a s IH]; simpl; [reflexivity|].
  intros Hs; apply andb_true_iff in Hs as [Ha Hs].
  destruct s as [|b s']; [reflexivity|].
  apply negb_true_iff in Ha; rewrite Ha; simpl; apply IH, Hs.
Qed.

Lemma afterPT_days (d : N) (rest : string) :
  noP rest = true ->
  afterPT (String.append "P" (String.append (decimal d) rest)) = None.
Proof.
  intros Hrest; destruct (decimal_cases d) as [a [ds [Ha [Hdig _]]]].
  pose proof (noP_decimal d) as Hd; rewrite Ha in *.
  cbn [String.append afterPT].
  replace (Ascii.eqb a "T") with false.
  - rewrite andb_false_r.
    change (afterPT (String.append (String a ds) rest) = None).
    apply noP_afterPT; rewrite noP_append, Hd, Hrest; reflexivity.
  - symmetry; apply Ascii.eqb_neq; intros ->; discriminate Hdig.
Qed.

(** A duration with a count of days parses to 0, whatever hours, minutes
    and seconds follow: its ["T"] comes after the days, not after the
    ["P"].  The same holds for a duration of days alone.  A song that
    gets such a duration has 100 as the divisor of its progress. *)
Theorem parseDuration_drops_days (d : N) (h m s : option N) :
  parseDuration (isoDuration (Some d) h m s) = 0%N /\
  parseDuration (String.append "P" (String.append (decimal d) "D")) = 0%N /\
  (forall song,
     duration song = IZR (Z.of_N (parseDuration (isoDuration (Some d) h m s))) ->
     progressDivisor song = 100).
Proof.
  assert (H1 : parseDuration (isoDuration (Some d) h m s) = 0%N).
  { unfold parseDuration, isoDuration; cbn [component].
    rewrite string_append_assoc, afterPT_days; [reflexivity|].
    cbn [String.append noP Ascii.eqb Bool.eqb negb andb].
    unfold timePart; rewrite !noP_append, !noP_component; reflexivity. }
  split; [exact H1|]; split.
  - unfold parseDuration; rewrite afterPT_days; reflexivity.
  - intros song Hsong; rewrite H1 in Hsong; unfold progressDivisor.
    change (IZR (Z.of_N 0)) with 0 in Hsong.
    rewrite (proj2 (Reqb_true _ _) Hsong); reflexivity.
Qed.

(** ** The layout of the card face *)

Lemma displayHeight_value : displayHeight = 506.
Proof. unfold displayHeight, canvasH; apply floor_two_thirds_of_height. Qed.

(** Everything the renderer draws stays on the canvas as long as the
    progress is at most 1: every rectangle lies within 512 by 760, the
    progress fill included, and every text and glyph is anchored on it. *)
Theorem drawPlayerCanvas_stays_on_canvas
    (measureText : Font -> string -> R) (context2d : bool)
    (s : Song) (active playing : bool) (progress : R)
    (Hp : progress <= 1) :
  Forall onCanvas
    (ops (drawPlayerCanvas measureText context2d s active playing progress)).
Proof.
  unfold drawPlayerCanvas; destruct context2d; cbn [negb ops]; [|constructor].
  pose proof displayHeight_value as Hd.
  assert (Hpos : active && Rltb 0 progress = true -> 0 < progress).
  { intros Ha; apply andb_true_iff in Ha as [_ Ha]; apply Rltb_true, Ha. }
  apply Forall_app; split; [|apply Forall_app; split];
    [ | unfold progressFillOps;
        destruct (active && Rltb 0 progress); [specialize (Hpos eq_refl)|] | ];
    repeat (apply Forall_cons;
            [ cbn [onCanvas];
              cbv delta [controlsTop centerX iconSpacing titleAreaTop
                progressBarTop progressBarLeft progressBarWidth
                progressBarHeight titleAreaHeight displayTop displayLeft
                displayWidth displayRadius padding canvasW canvasH
                cardRadius];
              rewrite ?Hd; lra | ]);
    apply Forall_nil.
Qed.

Lemma drawPlayerCanvas_stays_on_canvas_witness :
  Forall onCanvas
    (ops (drawPlayerCanvas tenPerChar true midnightCity true true 0.4)).
Proof.
  apply (drawPlayerCanvas_stays_on_canvas tenPerChar true midnightCity
           true true 0.4); lra.
Defined.

(** ** The throttle *)

Section Throttle.

Variable measureText : Font -> string -> R.
Variable context2d : bool.

Local Abbreviation draw := (drawPlayerCanvas measureText context2d).
Local Abbreviation updateCard' := (updateCard measureText context2d).
Local Abbreviation render' := (render measureText context2d).
Local Abbreviation mount' := (mount measureText context2d).
Local Abbreviation renders' := (renders measureText context2d).

Lemma depsEqb_same (p q : Playback) :
  id (currentSong p) = id (currentSong q) ->
  isPlaying p = isPlaying q ->
  currentTime p = currentTime q ->
  depsEqb (depsOf p) (depsOf q) = true.
Proof.
  intros Hid Hpl Ht; unfold depsEqb, depsOf; rewrite Hid, Hpl, Ht.
  rewrite String.eqb_refl, Bool.eqb_reflx.
  rewrite (proj2 (Reqb_true _ _) eq_refl); reflexivity.
Qed.

Lemma updateCard_version (p : Playback) (lastTime : R) (c : Card) :
  plainCanvas c ->
  version (texture (updateCard' p lastTime c)) =
  if redrawsActive p lastTime c then S (version (texture c))
  else version (texture c).
Proof.
  intros Hc; rewrite (updateCard_cases measureText context2d p lastTime c Hc).
  destruct (redrawsActive p lastTime c); reflexivity.
Qed.

Lemma render_throttled (g0 g : Gallery) (prev p : Playback) :
  throttled g0 g prev ->
  id (currentSong p) = id (currentSong prev) ->
  isPlaying p = isPlaying prev ->
  currentTime prev <= currentTime p ->
  throttled g0 (render' p g) p.
Proof.
  intros [Hplain [Hdeps [Hlast [Hlen Hcards]]]] Hid Hpl Ht.
  split; [apply render_plain, Hplain|].
  split; [reflexivity|].
  unfold render, runsEffect; rewrite Hdeps.
  destruct (depsEqb (depsOf prev) (depsOf p)) eqn:Hsame; cbn [negb].
  - (* the effect does not run *)
    cbn [cards lastTimeRef].
    split; [lra|]; split; [exact Hlen | exact Hcards].
  - (* the effect runs *)
    cbn [playbackEffect cards lastTimeRef].
    assert (Hne : currentTime p <> lastTimeRef g).
    { intros Heq.
      assert (Hprev : currentTime prev = currentTime p) by lra.
      rewrite (depsEqb_same prev p (eq_sym Hid) (eq_sym Hpl) Hprev) in Hsame.
      discriminate. }
    assert (Habs : Rabs (currentTime p - lastTimeRef g) =
                   currentTime p - lastTimeRef g)
      by (apply Rabs_pos_eq; lra).
    unfold shouldUpdateTime, timeDiff; rewrite Habs.
    split; [destruct (Rleb 0.5 _); lra|].
    split; [rewrite length_map; exact Hlen|].
    intros i c0 c' Hc0 Hc'.
    rewrite nth_error_map in Hc'.
    destruct (nth_error (cards g) i) as [c|] eqn:Hc; [|discriminate].
    injection Hc' as <-.
    destruct (Hcards i c0 c Hc0 Hc) as [Hv Hbound].
    rewrite Forall_forall in Hplain.
    rewrite (updateCard_version p (lastTimeRef g) c
               (Hplain c (nth_error_In _ _ Hc))).
    destruct (redrawsActive p (lastTimeRef g) c) eqn:Hr.
    + apply redrawsActive_iff in Hr as [_ [Hdue | Hsame']]; [|contradiction].
      rewrite Habs in Hdue.
      rewrite (proj2 (Rleb_true _ _) Hdue).
      split; [lia|].
      replace (S (version (texture c)) - version (texture c0))%nat
        with (S (version (texture c) - version (texture c0))) by lia.
      rewrite S_INR; lra.
    + split; [exact Hv|].
      destruct (Rleb 0.5 _) eqn:Hdue; [apply Rleb_true in Hdue|]; lra.
Qed.

Lemma mount_throttled (songs : list Song) (p0 : Playback) :
  0 <= currentTime p0 ->
  throttled (mount' songs p0) (mount' songs p0) p0.
Proof.
  intros H0.
  split; [apply mount_plain|]; split; [reflexivity|]; split.
  - unfold mount, render; cbn [runsEffect lastDeps playbackEffect lastTimeRef].
    unfold shouldUpdateTime; destruct (Rleb 0.5 _); lra.
  - split; [reflexivity|].
    intros i c0 c Hc0 Hc; rewrite Hc0 in Hc; injection Hc as <-.
    rewrite Nat.sub_diag, Rminus_diag; simpl; split; [lia | lra].
Qed.

Lemma last_after {A : Type} (ps : list A) :
  forall p prev, last (p :: ps) prev = last ps p.
Proof.
  induction ps as [|q ps IH]; intros p prev; [reflexivity|].
  change (last (p :: q :: ps) prev) with (last (q :: ps) prev).
  rewrite !IH; reflexivity.
Qed.

Lemma renders_throttled (g0 : Gallery) (ps : list Playback) :
  forall g prev,
    throttled g0 g prev -> steadyFrom prev ps ->
    throttled g0 (renders' ps g) (last ps prev).
Proof.
  induction ps as [|p ps IH]; intros g prev Hg Hs; [exact Hg|].
  destruct Hs as [Hid [Hpl [Ht Hs]]].
  change (renders' (p :: ps) g) with (renders' ps (render' p g)).
  rewrite last_after.
  apply IH; [|exact Hs].
  apply (render_throttled g0 g prev p Hg Hid Hpl Ht).
Qed.

(** The throttle.  While the same song keeps playing and the time never
    goes back, however often the playback is pushed, no card is redrawn
    more than once per half second of media time: the number of redraws
    of a card since the mount, times 0.5, is at most the time of the
    last update less the [lastTimeRef] the mount left.  Texture versions
    never go down. *)
Theorem steady_playback_is_throttled
    (songs : list Song) (p0 : Playback) (ps : list Playback)
    (H0 : 0 <= currentTime p0) (Hsteady : steadyFrom p0 ps) :
  let g0 := mount' songs p0 in
  let g := renders' ps g0 in
  lastTimeRef g <= currentTime (last ps p0) /\
  (lastTimeRef g0 = 0 \/ lastTimeRef g0 = currentTime p0) /\
  forall i c0 c,
    nth_error (cards g0) i = Some c0 -> nth_error (cards g) i = Some c ->
    (version (texture c0) <= version (texture c))%nat /\
    INR (version (texture c) - version (texture c0)) * 0.5
      <= currentTime (last ps p0) - lastTimeRef g0.
Proof.
  intros g0 g.
  destruct (renders_throttled g0 ps g0 p0 (mount_throttled songs p0 H0) Hsteady)
    as [_ [_ [Hlast [_ Hcards]]]].
  fold g in Hlast, Hcards.
  split; [exact Hlast|]; split.
  - unfold g0, mount, render.
    cbn [runsEffect lastDeps playbackEffect lastTimeRef].
    destruct (shouldUpdateTime p0 0); [right | left]; reflexivity.
  - intros i c0 c Hc0 Hc; destruct (Hcards i c0 c Hc0 Hc) as [Hv Hb].
    split; [exact Hv | lra].
Qed.

End Throttle.

Lemma steady_playback_is_throttled_witness :
  let p0 := mkPlayback midnightCity true 0 in
  let ps := [mkPlayback midnightCity true 0.1;
             mkPlayback midnightCity true 0.2;
             mkPlayback midnightCity true 0.6;
             mkPlayback midnightCity true 0.7] in
  let g0 := mount tenPerChar true [midnightCity; starboy] p0 in
  let g := renders tenPerChar true ps g0 in
  lastTimeRef g <= 0.7 /\
  (lastTimeRef g0 = 0 \/ lastTimeRef g0 = 0).
Proof.
  destruct (steady_playback_is_throttled tenPerChar true
              [midnightCity; starboy] (mkPlayback midnightCity true 0)
              [mkPlayback midnightCity true 0.1;
               mkPlayback midnightCity true 0.2;
               mkPlayback midnightCity true 0.6;
               mkPlayback midnightCity true 0.7]
              ltac:(simpl; lra)
              ltac:(simpl; repeat split; lra)) as [Hlast [Hmount _]].
  split; [exact Hlast | exact Hmount].
Defined.
